(** * deadbeef-lyricbar: the lyrics resolution pipeline of [src/utils.cpp]

    A shallow embedding of the cache-key derivation, the on-disk cache
    ([is_cached], [load_cached_lyrics], [save_cached_lyrics]), the script
    provider ([get_lyrics_from_script]) and the resolver ([update_lyrics]),
    followed by the properties of the specification that concern them.

    Conventions.
    - [std::string], [Glib::ustring] and file contents are byte strings:
      Rocq's [string].  A [const char *] is a [cstr]: [None] is the null
      pointer, [Some s] points to the NUL-free text [s].
    - Every function that touches the outside world is a computation in the
      monad [M]: it threads a [world] (the files below the cache directory,
      the faults the file system may raise, and the trace of observable
      events) and may be [Undefined] (a null pointer handed to a
      [std::string] constructor).
    - What DeaDBeeF, glib and the C library provide is gathered in the
      record [host]. *)

From Stdlib Require Import String Ascii List ZArith Lia.
From stdpp Require Import base option strings gmap.

Open Scope string_scope.

(** ** Strings *)

(** The line feed written by ["\n"] and by [std::endl]. *)
Definition nl : string := String (ascii_of_nat 10) EmptyString.

(** [std::replace(s.begin(), s.end(), old_value, new_value)]. *)
Fixpoint replace (old_value new_value : ascii) (s : string) : string :=
  match s with
  | EmptyString => EmptyString
  | String c rest =>
      String (if Ascii.eqb c old_value then new_value else c)
             (replace old_value new_value rest)
  end.

(** Whether a byte occurs in a string. *)
Fixpoint occurs (c : ascii) (s : string) : bool :=
  match s with
  | EmptyString => false
  | String d rest => Ascii.eqb d c || occurs c rest
  end.

(** The first [n] bytes of [s] (all of it when it is shorter). *)
Fixpoint take_bytes (n : nat) (s : string) : string :=
  match n, s with
  | S k, String c rest => String c (take_bytes k rest)
  | _, _ => EmptyString
  end.

(** [std::string(n, c)]: [n] copies of the byte [c]. *)
Fixpoint string_fill (n : nat) (c : ascii) : string :=
  match n with
  | O => EmptyString
  | S k => String c (string_fill k c)
  end.

(** [s.resize(n)]: cut to [n] bytes, or pad with NUL bytes up to [n]. *)
Definition resize (n : nat) (s : string) : string :=
  take_bytes n s +:+ string_fill (n - String.length s) zero.

(** [s.empty()]. *)
Definition string_empty (s : string) : bool :=
  match s with EmptyString => true | String _ _ => false end.

(** A [const char *]: null, or a pointer to a NUL-terminated text. *)
Definition cstr : Type := option string.

(** ** The world *)

(** A track handle ([DB_playItem_t *]); the host owns what it points to. *)
Definition track : Type := nat.

(** Compiled title-formatting bytecode ([char *] returned by [tf_compile]). *)
Definition tf_code : Type := string.

(** Observable events, in the order the program causes them. *)
Inductive event : Type :=
| EvLock                                        (* pl_lock_guard constructed *)
| EvUnlock                                      (* pl_lock_guard destroyed *)
| EvSetLyrics (it : track) (text : string)      (* set_lyrics(it, text) *)
| EvCerr (msg : string)                         (* written to std::cerr *)
| EvDebug (msg : string)                        (* written to debug_out *)
| EvAccess (path : string)                      (* access(path, 0) *)
| EvOpenWrite (path : string) (opened : bool)   (* ofstream t(path) *)
| EvWrite (path : string) (stored : string)     (* t << lyrics *)
| EvRead (path : string)                        (* file_get_contents(path) *)
| EvTfCompile (script : string)                 (* tf_compile(script) *)
| EvTfEval (code : tf_code) (it : track)        (* tf_eval(&ctx, code, ...) *)
| EvTfFree (code : tf_code)                     (* tf_free(code) *)
| EvSpawn (command_line : string).              (* spawn_command_line_sync *)

(** The state the program runs against.  [files] maps a path to the content
    of the file there.  The three fault fields say what the file system
    refuses: [unwritable] holds the paths an [ofstream] cannot open (missing
    directory, permissions, name too long), [unreadable] the existing files
    that cannot be read, and [room], when set, is the number of bytes one
    stream write can still store before the device is full. *)
Record world : Type := World {
  files : gmap string string;
  unwritable : gset string;
  unreadable : gset string;
  room : option nat;
  trace : list event
}.

Definition log (e : event) (w : world) : world :=
  World (files w) (unwritable w) (unreadable w) (room w) (trace w ++ [e]).

Definition set_files (fs : gmap string string) (w : world) : world :=
  World fs (unwritable w) (unreadable w) (room w) (trace w).

(** ** The monad of effectful code *)

Inductive outcome (A : Type) : Type :=
| Ret (a : A) (w : world)
| Undefined.
Arguments Ret {A} a w.
Arguments Undefined {A}.

Definition M (A : Type) : Type := world -> outcome A.

Definition ret {A} (a : A) : M A := fun w => Ret a w.

Definition bind {A B} (m : M A) (k : A -> M B) : M B :=
  fun w => match m w with
           | Ret a w' => k a w'
           | Undefined => Undefined
           end.

Notation "'let*' x ':=' m 'in' k" := (bind m (fun x => k))
  (at level 10, x name, m at level 100, k at level 200).
Notation "m ';;' k" := (bind m (fun _ => k))
  (at level 100, k at level 200, right associativity).

Definition emit (e : event) : M unit := fun w => Ret tt (log e w).

(** [std::string(p)]: undefined for a null [p]. *)
Definition string_of_cstr (p : cstr) : M string :=
  match p with
  | Some s => ret s
  | None => fun _ => Undefined
  end.

Definition is_null (p : cstr) : bool :=
  match p with Some _ => false | None => true end.

(** The value and the final world of a finished computation. *)
Definition value_of {A} (o : outcome A) : option A :=
  match o with Ret a _ => Some a | Undefined => None end.

Definition world_of {A} (o : outcome A) : option world :=
  match o with Ret _ w => Some w | Undefined => None end.

(** ** The host *)

(** What [spawn_command_line_sync] reports: a [Glib::Error], or the captured
    standard output with the wait status of the child. *)
Inductive spawn_result : Type :=
| SpawnError (what : string)
| SpawnDone (standard_output : string) (exit_status : Z).

(** The collaborators of the pipeline.  [conf_value] is the configuration
    store, [tf_compile_host] and [tf_expand] are the title-formatting engine
    ([None] is its failure signal), [run_command] is the shell,
    [utf8_validate] is [Glib::ustring::validate] and [gettext] is the
    message catalogue behind [_()]. *)
Record host : Type := Host {
  env_xdg_cache_home : cstr;
  env_home : string;
  pl_find_meta : track -> string -> cstr;
  conf_value : string -> option string;
  tf_compile_host : string -> option tf_code;
  tf_expand : tf_code -> track -> option string;
  run_command : string -> spawn_result;
  utf8_validate : string -> bool;
  gettext : string -> string
}.

(** [a ?: b] on pointers: [a] unless it is null. *)
Definition elvis (a b : cstr) : cstr :=
  match a with Some _ => a | None => b end.

Section Pipeline.

Variable h : host.

(** The static [lyrics_dir]: [$XDG_CACHE_HOME], or [$HOME/.cache], followed
    by ["/deadbeef/lyrics/"]. *)
Definition lyrics_dir : string :=
  (match env_xdg_cache_home h with
   | Some home_cache => home_cache
   | None => env_home h +:+ "/.cache"
   end) +:+ "/deadbeef/lyrics/".

(** ** Host calls *)

(** [deadbeef->conf_get_str(key, def, buffer, buffer_size)] leaves in the
    buffer the configured text (or [def], or nothing), cut so that it fits
    the buffer together with its terminating NUL.  The result is the C
    string the buffer then holds. *)
Definition conf_get_str (key : string) (def : cstr) (buffer_size : nat) : string :=
  match elvis (conf_value h key) def with
  | Some out => take_bytes (buffer_size - 1) out
  | None => EmptyString
  end.

(** [deadbeef->tf_compile(script)]. *)
Definition tf_compile (script : string) : M (option tf_code) :=
  emit (EvTfCompile script);; ret (tf_compile_host h script).

(** [deadbeef->tf_eval(&ctx, code, out, outlen)]: a negative result on
    failure, else the length of the text written, which fits [outlen]
    together with its NUL.  Returns the result and the text. *)
Definition tf_eval (code : tf_code) (it : track) (outlen : nat) : M (Z * string) :=
  emit (EvTfEval code it);;
  ret (match tf_expand h code it with
       | Some text =>
           let out := take_bytes (outlen - 1) text in
           (Z.of_nat (String.length out), out)
       | None => ((-1)%Z, EmptyString)
       end).

(** [deadbeef->tf_free(code)]. *)
Definition tf_free (code : tf_code) : M unit := emit (EvTfFree code).

(** [Glib::spawn_command_line_sync(command_line, &out, nullptr, &status)]. *)
Definition spawn_command_line_sync (command_line : string) : M spawn_result :=
  emit (EvSpawn command_line);; ret (run_command h command_line).

(** [std::cerr << msg]. *)
Definition cerr (msg : string) : M unit := emit (EvCerr msg).

(** Modelled from the spec: [debug_out] of debug.h, the log to which the
    cache reports the file it reads and the failure to read it. *)
Definition debug_out (msg : string) : M unit := emit (EvDebug msg).

(** Modelled from the spec: [set_lyrics] of ui.h, the UI push capability
    [SetDisplayedLyrics(track, text)]: a fire-and-forget handoff, recorded
    as an event. *)
Definition set_lyrics (it : track) (text : string) : M unit :=
  emit (EvSetLyrics it text).

(** Modelled from the spec: [pl_lock_guard] of utils.h, the scoped
    metadata-read lock: acquired where the guard is declared, released at
    the end of its scope. *)
Definition pl_lock : M unit := emit EvLock.
Definition pl_unlock : M unit := emit EvUnlock.

(** ** The file system *)

(** [access(path, 0) == 0]: the path exists. *)
Definition access_ok (path : string) : M bool :=
  fun w => Ret (bool_decide (is_Some (files w !! path))) (log (EvAccess path) w).

(** [ofstream t(path)] followed by [!t]: the open fails on an unwritable
    path and changes nothing; else it creates the file or truncates it.
    Returns whether the stream is open. *)
Definition ofstream_open (path : string) : M bool :=
  fun w =>
    if bool_decide (path ∈ unwritable w)
    then Ret false (log (EvOpenWrite path false) w)
    else Ret true (log (EvOpenWrite path true)
                       (set_files (<[path := EmptyString]> (files w)) w)).

(** What a stream write of [data] stores when [room] bytes are left. *)
Definition stored_bytes (room : option nat) (data : string) : string :=
  match room with
  | Some n => take_bytes n data
  | None => data
  end.

(** [t << data] on the stream opened on [path]: appends what the device
    accepts.  The stream's error state is not returned: [utils.cpp] never
    tests it. *)
Definition ofstream_write (path data : string) : M unit :=
  fun w =>
    let stored := stored_bytes (room w) data in
    Ret tt (log (EvWrite path stored)
                (set_files (<[path := default EmptyString (files w !! path) +:+ stored]>
                              (files w)) w)).

(** [Glib::file_get_contents(path)]: the content, or the [FileError] it
    throws ([inr], with its message). *)
Definition file_get_contents (path : string) : M (string + string) :=
  fun w =>
    Ret (match files w !! path with
         | Some content =>
             if bool_decide (path ∈ unreadable w)
             then inr ("Failed to open file: Permission denied")
             else inl content
         | None => inr ("Failed to open file: No such file or directory")
         end)
        (log (EvRead path) w).

(** ** The cache *)

Definition cached_filename (artist title : string) : string :=
  let artist := replace "/" "_" artist in
  let title := replace "/" "_" title in
  ((lyrics_dir +:+ artist) +:+ "-") +:+ title.

Definition is_cached (artist title : cstr) : M bool :=
  if is_null artist then ret false
  else if is_null title then ret false
  else
    let* a := string_of_cstr artist in
    let* t := string_of_cstr title in
    access_ok (cached_filename a t).

Definition load_cached_lyrics (artist title : cstr) : M (option string) :=
  let* a := string_of_cstr artist in
  let* t := string_of_cstr title in
  let filename := cached_filename a t in
  debug_out ("filename = '" +:+ filename +:+ "'" +:+ nl);;
  let* r := file_get_contents filename in
  match r with
  | inl content => ret (Some content)
  | inr what => debug_out what;; ret None
  end.

Definition save_cached_lyrics (artist title lyrics : string) : M bool :=
  let filename := cached_filename artist title in
  let* opened := ofstream_open filename in
  if negb opened then
    cerr ("lyricbar: could not open file for writing: " +:+ filename +:+ nl);;
    ret false
  else
    ofstream_write filename lyrics;;
    ret true.

(** ** Lyrics from the track's own tags *)

Definition get_lyrics_from_metadata (it : track) : M (option string) :=
  pl_lock;;
  let lyrics := elvis (pl_find_meta h it "unsynced lyrics")
               (elvis (pl_find_meta h it "UNSYNCEDLYRICS")
                      (pl_find_meta h it "lyrics")) in
  pl_unlock;;
  ret lyrics.

(** ** The script provider *)

(** The size of the buffer that holds the command template and then the
    expanded command. *)
Definition BUF_SIZE : nat := 4096.

Definition msg_invalid_command : string :=
  "lyricbar: Invalid script command!" +:+ nl.

Definition msg_invalid_utf8 : string :=
  "lyricbar: script output is not a valid UTF8 string!" +:+ nl.

Definition get_lyrics_from_script (it : track) : M (option string) :=
  let buf := conf_get_str "lyricbar.customcmd" None BUF_SIZE in
  if string_empty buf then ret None
  else
    let* tf_code := tf_compile buf in
    match tf_code with
    | None => cerr msg_invalid_command;; ret None
    | Some code =>
        let* ev := tf_eval code it BUF_SIZE in
        let command_len := fst ev in
        let buf := snd ev in
        tf_free code;;
        if (command_len <? 0)%Z then cerr msg_invalid_command;; ret None
        else
          let buf := resize (Z.to_nat command_len) buf in
          let* spawned := spawn_command_line_sync buf in
          match spawned with
          | SpawnError what => cerr ("lyricbar: " +:+ what +:+ nl);; ret None
          | SpawnDone script_output exit_status =>
              if string_empty script_output || negb (exit_status =? 0)%Z
              then ret None
              else
                let res := script_output in
                if negb (utf8_validate h res)
                then cerr msg_invalid_utf8;; ret None
                else ret (Some res)
          end
    end.

(** ** The resolver *)

(** A provider: a function from a track to an optional [ustring]. *)
Definition provider : Type := track -> M (option string).

Definition providers : list provider := [get_lyrics_from_script].

(** The [for (auto f : providers)] loop of [update_lyrics]; the result tells
    whether the loop returned from [update_lyrics]. *)
Fixpoint try_providers (fs : list provider) (it : track) (artist title : cstr)
  : M bool :=
  match fs with
  | [] => ret false
  | f :: rest =>
      let* lyrics := f it in
      match lyrics with
      | Some text =>
          set_lyrics it text;;
          let* a := string_of_cstr artist in
          let* t := string_of_cstr title in
          save_cached_lyrics a t text;;
          ret true
      | None => try_providers rest it artist title
      end
  end.

Definition update_lyrics (it : track) : M unit :=
  let* lyrics := get_lyrics_from_metadata it in
  match lyrics with
  | Some text => set_lyrics it text
  | None =>
      pl_lock;;
      let artist := pl_find_meta h it "artist" in
      let title := pl_find_meta h it "title" in
      pl_unlock;;
      if negb (is_null artist) && negb (is_null title) then
        let* cached := load_cached_lyrics artist title in
        match cached with
        | Some text => set_lyrics it text
        | None =>
            set_lyrics it (gettext h "Loading...");;
            let* returned := try_providers providers it artist title in
            if returned then ret tt
            else set_lyrics it (gettext h "Lyrics not found")
        end
      else set_lyrics it (gettext h "Lyrics not found")
  end.

End Pipeline.

(** ** Reading a trace *)

(** The tag names [get_lyrics_from_metadata] looks up, in its order. *)
Definition lyrics_tags : list string :=
  ["unsynced lyrics"; "UNSYNCEDLYRICS"; "lyrics"].

(** The value of the first of [keys] that the track carries. *)
Definition first_present (h : host) (it : track) (keys : list string) : cstr :=
  foldr (fun key rest => elvis (pl_find_meta h it key) rest) None keys.

(** The world after the events [evs] were appended to its trace. *)
Definition after (evs : list event) (w : world) : world :=
  World (files w) (unwritable w) (unreadable w) (room w) (trace w ++ evs).

(** The template the script provider compiles, and the command it spawns
    when the template expands to [text]. *)
Definition script_of (h : host) : string :=
  conf_get_str h "lyricbar.customcmd" None BUF_SIZE.

Definition command_of (text : string) : string :=
  take_bytes (BUF_SIZE - 1) text.

(** An event is [from_buffer] when, if it compiles a template or spawns a
    command, the text it carries is what the provider's buffer held. *)
Definition from_buffer (h : host) (e : event) : Prop :=
  match e with
  | EvTfCompile script => script = script_of h
  | EvSpawn command_line => exists text, command_line = command_of text
  | _ => True
  end.

(** The texts pushed to the UI, oldest first. *)
Definition ui_pushes (tr : list event) : list (track * string) :=
  omap (fun e => match e with EvSetLyrics it text => Some (it, text) | _ => None end) tr.

(** The diagnostics written to [std::cerr], oldest first. *)
Definition diagnostics (tr : list event) : list string :=
  omap (fun e => match e with EvCerr msg => Some msg | _ => None end) tr.

(** Whether an event opens a file for writing or writes to one. *)
Definition is_cache_write (e : event) : bool :=
  match e with EvOpenWrite _ _ | EvWrite _ _ => true | _ => false end.

(** Whether an event touches the file system at all. *)
Definition is_fs_event (e : event) : bool :=
  match e with
  | EvAccess _ | EvOpenWrite _ _ | EvWrite _ _ | EvRead _ => true
  | _ => false
  end.

(** ** A reference UTF-8 validator and example hosts *)

Definition in_range (lo hi b : N) : bool := ((lo <=? b) && (b <=? hi))%N.

Definition continuation (b : N) : bool := in_range 0x80 0xBF b.

(** Well-formed UTF-8 (RFC 3629: shortest forms, no surrogates, at most
    U+10FFFF) without NUL bytes, which is what [g_utf8_validate] accepts
    when given an explicit length. *)
Fixpoint utf8_well_formed (bs : list N) : bool :=
  match bs with
  | [] => true
  | b0 :: r0 =>
      if in_range 0x01 0x7F b0 then utf8_well_formed r0
      else
        match r0 with
        | [] => false
        | b1 :: r1 =>
            if in_range 0xC2 0xDF b0 then continuation b1 && utf8_well_formed r1
            else
              match r1 with
              | [] => false
              | b2 :: r2 =>
                  if in_range 0xE0 0xEF b0 then
                    in_range (if (b0 =? 0xE0)%N then 0xA0 else 0x80)
                             (if (b0 =? 0xED)%N then 0x9F else 0xBF) b1
                    && continuation b2 && utf8_well_formed r2
                  else
                    match r2 with
                    | [] => false
                    | b3 :: r3 =>
                        in_range 0xF0 0xF4 b0
                        && in_range (if (b0 =? 0xF0)%N then 0x90 else 0x80)
                                    (if (b0 =? 0xF4)%N then 0x8F else 0xBF) b1
                        && continuation b2 && continuation b3
                        && utf8_well_formed r3
                    end
              end
        end
  end.

Definition utf8_string_valid (s : string) : bool :=
  utf8_well_formed (map N_of_ascii (list_ascii_of_string s)).

(** A host in the situation of the specification's scenario: track [1] is
    "T.N.T" by "AC/DC" without lyrics tags, track [2] carries an empty
    "unsynced lyrics" tag and a "lyrics" tag, track [3] has no title; the
    configured command is taken literally and the shell answers as
    [shell] says. *)
Definition example_meta (it : track) (key : string) : cstr :=
  match it with
  | 1 => if String.eqb key "artist" then Some "AC/DC"
         else if String.eqb key "title" then Some "T.N.T"
         else None
  | 2 => if String.eqb key "unsynced lyrics" then Some ""
         else if String.eqb key "lyrics" then Some "la la la"
         else if String.eqb key "artist" then Some "AC/DC"
         else if String.eqb key "title" then Some "T.N.T"
         else None
  | 3 => if String.eqb key "artist" then Some "AC/DC" else None
  | _ => None
  end.

Definition example_host (customcmd : option string) (shell : string -> spawn_result)
  : host :=
  {| env_xdg_cache_home := None;
     env_home := "/home/u";
     pl_find_meta := example_meta;
     conf_value := fun key =>
       if String.eqb key "lyricbar.customcmd" then customcmd else None;
     tf_compile_host := fun script => Some script;
     tf_expand := fun code _ => Some code;
     run_command := shell;
     utf8_validate := utf8_string_valid;
     gettext := fun msgid => msgid |}.

(** The shell that prints "Hello" and exits with status 0. *)
Definition echo_hello (command_line : string) : spawn_result :=
  SpawnDone "Hello" 0.

Definition scenario_host : host := example_host (Some "echo Hello") echo_hello.

(** A world with the given files and faults and an empty trace. *)
Definition quiet_world (fs : gmap string string) (ro : gset string)
    (room : option nat) : world :=
  World fs ro ∅ room [].

(** The world of a healthy, empty cache directory. *)
Definition fresh_world : world := quiet_world ∅ ∅ None.

(** ** Creating the cache directory *)

(** [errno] after a [mkdir] that found the directory in place, and after
    one that was denied. *)
Definition EEXIST : positive := 17.
Definition EACCES : positive := 13.

(** [name.find_first_of(c, pos)]: the first position at or after [pos]
    that holds [c]; [None] is [string::npos]. *)
Fixpoint find_first_of (c : ascii) (name : string) (pos : nat) : option nat :=
  match name with
  | EmptyString => None
  | String d rest =>
      match pos with
      | O => if Ascii.eqb d c then Some O
             else option_map S (find_first_of c rest O)
      | S p => option_map S (find_first_of c rest p)
      end
  end.

Section Mkpath.

(** The directory tree, and [mkdir(path, mode)] on it: [None] when it
    returns 0, [Some errno] when it fails. *)
Context {tree : Type}.
Variable mkdir : string -> Z -> tree -> option positive * tree.

(** The [while] loop of [mkpath], entered with the search position [pos];
    [fuel] bounds its iterations.  The result is the value returned (0 or
    an [errno]) and the tree left. *)
Fixpoint mkpath_loop (fuel : nat) (name : string) (mode : Z) (pos : nat)
    (st : tree) : option (Z * tree) :=
  match fuel with
  | O => None
  | S fuel' =>
      match find_first_of "/" name pos with
      | None => Some (0%Z, st)
      | Some found =>
          let dir := take_bytes found name in
          let pos := S found in
          if string_empty dir then mkpath_loop fuel' name mode pos st
          else
            match mkdir dir mode st with
            | (Some errno, st') =>
                if negb (Pos.eqb errno EEXIST) then Some (Z.pos errno, st')
                else mkpath_loop fuel' name mode pos st'
            | (None, st') => mkpath_loop fuel' name mode pos st'
            end
      end
  end.

(** Each iteration moves past one byte of [name] at least, so one more
    iteration than [name] has bytes is enough. *)
Definition mkpath (name : string) (mode : Z) (st : tree) : option (Z * tree) :=
  mkpath_loop (S (String.length name)) name mode 0 st.

(** [mkdir] on each directory of a list in turn, up to the first failure
    that is not [EEXIST]. *)
Fixpoint mkdir_each (dirs : list string) (mode : Z) (st : tree) : Z * tree :=
  match dirs with
  | [] => (0%Z, st)
  | dir :: rest =>
      match mkdir dir mode st with
      | (Some errno, st') =>
          if negb (Pos.eqb errno EEXIST) then (Z.pos errno, st')
          else mkdir_each rest mode st'
      | (None, st') => mkdir_each rest mode st'
      end
  end.

End Mkpath.

(** The non-empty prefixes of [seen ++ rest] that end just before a '/' of
    [rest], shortest first. *)
Fixpoint slash_prefixes_from (seen rest : string) : list string :=
  match rest with
  | EmptyString => []
  | String c rest' =>
      (if Ascii.eqb c "/" && negb (string_empty seen) then [seen] else [])
      ++ slash_prefixes_from (seen +:+ String c EmptyString) rest'
  end.

Definition slash_prefixes (name : string) : list string :=
  slash_prefixes_from EmptyString name.

(** [ensure_lyrics_path_exists]: [mkpath(lyrics_dir, 0755)], its result
    dropped. *)
Definition ensure_lyrics_path_exists {tree : Type}
    (mkdir : string -> Z -> tree -> option positive * tree) (h : host)
    (st : tree) : option tree :=
  option_map snd (mkpath mkdir (lyrics_dir h) 493 st).

(** A directory tree for examples: the directories in place, and those the
    system refuses to create. *)
Record dirs : Type := Dirs {
  in_place : gset string;
  refused : gset string
}.

Definition mkdir_in (path : string) (mode : Z) (d : dirs) : option positive * dirs :=
  if bool_decide (path ∈ in_place d) then (Some EEXIST, d)
  else if bool_decide (path ∈ refused d) then (Some EACCES, d)
  else (None, Dirs ({[ path ]} ∪ in_place d) (refused d)).

(** A [mkdir] that always succeeds and only records what it was asked
    for, in order. *)
Definition mkdir_log (path : string) (mode : Z) (asked : list string)
  : option positive * list string :=
  (None, (asked ++ [path])%list).

(** ** The playing track *)

(** The references this code holds on playlist items: [pl_item_ref] and the
    host calls that return a referenced item add one, [pl_item_unref] takes
    one away. *)
Definition ref_count (it : track) (held : gmap track Z) : Z :=
  default 0%Z (held !! it).

Definition pl_item_ref (it : track) (held : gmap track Z) : gmap track Z :=
  <[it := (ref_count it held + 1)%Z]> held.

Definition pl_item_unref (it : track) (held : gmap track Z) : gmap track Z :=
  <[it := (ref_count it held - 1)%Z]> held.

(** [deadbeef->streamer_get_playing_track()]: the playing item, referenced,
    or null. *)
Definition streamer_get_playing_track (playing : option track)
    (held : gmap track Z) : option track * gmap track Z :=
  match playing with
  | Some it => (Some it, pl_item_ref it held)
  | None => (None, held)
  end.

Definition is_playing (playing : option track) (it : track)
    (held : gmap track Z) : bool * gmap track Z :=
  let got := streamer_get_playing_track playing held in
  match fst got with
  | None => (false, snd got)
  | Some pl_track =>
      let held := pl_item_unref pl_track (snd got) in
      (Nat.eqb pl_track it, held)
  end.

(** ** The cache maintenance action *)

(** [ddb_action_context_t]. *)
Inductive ddb_action_context_t : Type :=
| DDB_ACTION_CTX_MAIN
| DDB_ACTION_CTX_SELECTION
| DDB_ACTION_CTX_PLAYLIST
| DDB_ACTION_CTX_NOWPLAYING.

Definition is_selection (ctx : ddb_action_context_t) : bool :=
  match ctx with DDB_ACTION_CTX_SELECTION => true | _ => false end.

(** What the action sees besides the host: the current playlist (its items
    in [PL_MAIN] order, [None] when there is no playlist), the selection
    flag of each item, and the paths [remove] fails to delete. *)
Record action_env : Type := ActionEnv {
  plt_curr : option (list track);
  pl_is_selected : track -> bool;
  undeletable : gset string
}.

(** The state of the action: the world, the item references held and the
    playlist references held. *)
Record session : Type := Session {
  s_world : world;
  s_items : gmap track Z;
  s_playlists : Z
}.

(** Computations on a session; [None] is undefined behaviour. *)
Definition MS (A : Type) : Type := session -> option (A * session).

Definition ret_s {A} (a : A) : MS A := fun s => Some (a, s).

Definition bind_s {A B} (m : MS A) (k : A -> MS B) : MS B :=
  fun s => match m s with
           | Some (a, s') => k a s'
           | None => None
           end.

Notation "'let+' x ':=' m 'in' k" := (bind_s m (fun x => k))
  (at level 10, x name, m at level 100, k at level 200).
Notation "m ';;+' k" := (bind_s m (fun _ => k))
  (at level 100, k at level 200, right associativity).

(** A computation on the world, run on the world of the session. *)
Definition on_world {A} (m : M A) : MS A :=
  fun s => match m (s_world s) with
           | Ret a w => Some (a, Session w (s_items s) (s_playlists s))
           | Undefined => None
           end.

Definition on_items (f : gmap track Z -> gmap track Z) : MS unit :=
  fun s => Some (tt, Session (s_world s) (f (s_items s)) (s_playlists s)).

Definition on_playlists (f : Z -> Z) : MS unit :=
  fun s => Some (tt, Session (s_world s) (s_items s) (f (s_playlists s))).

(** [remove(path)]: deletes the file unless the system refuses; the result
    is dropped, as the action drops it.  The call shows in the files only:
    the trace has no event for a deletion, so a trace of the action says
    nothing about its [remove] calls. *)
Definition remove_file (env : action_env) (path : string) : M unit :=
  fun w =>
    Ret tt (if bool_decide (path ∈ undeletable env) then w
            else set_files (delete path (files w)) w).

Section Action.

Variable h : host.
Variable env : action_env.

(** The body of the loop for the item [current]. *)
Definition purge_item (current : track) : MS unit :=
  if pl_is_selected env current then
    let artist := pl_find_meta h current "artist" in
    let title := pl_find_meta h current "title" in
    let+ cached := on_world (is_cached h artist title) in
    if cached then
      on_world (let* a := string_of_cstr artist in
                let* t := string_of_cstr title in
                remove_file env (cached_filename h a t))
    else ret_s tt
  else ret_s tt.

(** The [while (current)] loop from the item [current], the items after it
    being [following]: [pl_get_next] returns the next item referenced (or
    null), then [current] is released. *)
Fixpoint purge_from (current : track) (following : list track) : MS unit :=
  purge_item current;;+
  match following with
  | [] =>
      on_items (pl_item_unref current)
  | next :: following' =>
      on_items (pl_item_ref next);;+
      on_items (pl_item_unref current);;+
      purge_from next following'
  end.

Definition remove_from_cache_action (ctx : ddb_action_context_t) : MS Z :=
  (if is_selection ctx then
     on_world (pl_lock);;+
     (match plt_curr env with
      | Some items =>
          on_playlists (Z.add 1);;+
          (match items with
           | [] => ret_s tt
           | first :: following =>
               on_items (pl_item_ref first);;+
               purge_from first following
           end);;+
          on_playlists (fun n => (n - 1)%Z)
      | None => ret_s tt
      end);;+
     on_world (pl_unlock)
   else ret_s tt);;+
  ret_s 0%Z.

End Action.

(** The paths the action tries to delete: the cache files of the selected
    items that carry an artist and a title. *)
Definition purge_targets (h : host) (env : action_env) (items : list track)
  : list string :=
  omap (fun it =>
          if pl_is_selected env it then
            match pl_find_meta h it "artist", pl_find_meta h it "title" with
            | Some a, Some t => Some (cached_filename h a t)
            | _, _ => None
            end
          else None) items.

(** An example playlist: tracks 1 and 3 selected, track 2 not. *)
Definition example_env : action_env :=
  ActionEnv (Some [1; 2; 3]) (fun it => negb (Nat.eqb it 2)) ∅.

Definition quiet_session (fs : gmap string string) : session :=
  Session (quiet_world fs ∅ None) ∅ 0.

(** The files left when each of [targets] that the system lets go has been
    deleted, and the world the action leaves: those files, and one
    [access] per target in the trace. *)
Definition delete_unless (env : action_env) (path : string)
    (fs : gmap string string) : gmap string string :=
  if bool_decide (path ∈ undeletable env) then fs else delete path fs.

Definition purged (env : action_env) (targets : list string)
    (fs : gmap string string) : gmap string string :=
  foldl (fun m path => delete_unless env path m) fs targets.

Definition purged_world (env : action_env) (targets : list string) (w : world)
  : world :=
  World (purged env targets (files w)) (unwritable w) (unreadable w) (room w)
        (trace w ++ map EvAccess targets).

(** ** Reading a run of the resolver *)

(** The events of [update_lyrics] up to and including its probe of the
    cache file at [path], for a track without lyrics tags. *)
Definition probe_events (path : string) : list event :=
  [EvLock; EvUnlock; EvLock; EvUnlock;
   EvDebug ("filename = '" +:+ path +:+ "'" +:+ nl); EvRead path].

(** What [update_lyrics] does once the cache has given nothing, the probe
    having ended with the message [what]: "Loading...", the provider (its
    answer [res], its events [evs]), then the text and the attempt to save
    it, or "Lyrics not found". *)
Definition after_miss (h : host) (it : track) (a t what : string)
    (res : option string) (evs : list event) (w : world) : outcome unit :=
  let tried := (probe_events (cached_filename h a t)
                ++ [EvDebug what; EvSetLyrics it (gettext h "Loading...")] ++ evs)%list in
  match res with
  | Some text =>
      match save_cached_lyrics h a t text
              (after (tried ++ [EvSetLyrics it text])%list w) with
      | Ret _ w1 => Ret tt w1
      | Undefined => Undefined
      end
  | None =>
      Ret tt (after (tried ++ [EvSetLyrics it (gettext h "Lyrics not found")])%list w)
  end.

(** * Properties *)

(** ** Strings *)

#[local] Arguments String.append : simpl nomatch.
#[local] Open Scope list_scope.

Lemma occurs_app (c : ascii) (s1 s2 : string) :
  occurs c (s1 +:+ s2) = occurs c s1 || occurs c s2.
Proof.
  induction s1 as [|d s1 IH]; simpl; [reflexivity|].
  rewrite IH. apply orb_assoc.
Qed.

Lemma occurs_replace (old_value new_value : ascii) (s : string) :
  old_value <> new_value ->
  occurs old_value (replace old_value new_value s) = false.
Proof.
  intros Hne. induction s as [|c s IH]; simpl; [reflexivity|].
  rewrite IH, orb_false_r.
  destruct (Ascii.eqb c old_value) eqn:E; [|exact E].
  apply Ascii.eqb_neq. intros Heq. apply Hne. now symmetry.
Qed.

Lemma length_replace (old_value new_value : ascii) (s : string) :
  String.length (replace old_value new_value s) = String.length s.
Proof. induction s as [|c s IH]; simpl; congruence. Qed.

Lemma get_replace (old_value new_value : ascii) (s : string) (i : nat) :
  String.get i (replace old_value new_value s)
  = option_map (fun c => if Ascii.eqb c old_value then new_value else c)
               (String.get i s).
Proof.
  revert i. induction s as [|c s IH]; intros i; simpl; [reflexivity|].
  destruct i as [|i]; [reflexivity|apply IH].
Qed.

Lemma append_assoc (s1 s2 s3 : string) :
  (s1 +:+ s2) +:+ s3 = s1 +:+ (s2 +:+ s3).
Proof. induction s1 as [|c s1 IH]; simpl; congruence. Qed.

Lemma append_empty_r (s : string) : s +:+ "" = s.
Proof. induction s as [|c s IH]; simpl; congruence. Qed.

Lemma length_take_bytes (n : nat) (s : string) :
  String.length (take_bytes n s) = Nat.min n (String.length s).
Proof.
  revert s. induction n as [|n IH]; intros [|c s]; simpl; auto.
Qed.

Lemma take_bytes_all (n : nat) (s : string) :
  String.length s <= n -> take_bytes n s = s.
Proof.
  revert s. induction n as [|n IH]; intros [|c s]; simpl; intros Hle;
    try reflexivity; try lia.
  f_equal. apply IH. lia.
Qed.

Lemma resize_length (s : string) : resize (String.length s) s = s.
Proof.
  unfold resize. rewrite take_bytes_all by lia.
  rewrite Nat.sub_diag. apply append_empty_r.
Qed.

Lemma string_empty_true (s : string) : string_empty s = true <-> s = "".
Proof. destruct s; simpl; split; congruence. Qed.

Lemma string_empty_false (s : string) : string_empty s = false <-> s <> "".
Proof. destruct s; simpl; split; congruence. Qed.

(** ** The cache key *)

(** C1: the file name of a cache entry is the cache directory followed by
    the key "<artist>-<title>", in which every '/' of the artist and of the
    title has become '_' (byte by byte, every other byte kept); the key part
    contains no '/', whatever the artist and the title. *)
Theorem cached_filename_key (h : host) (artist title : string) :
  let subst := fun c : ascii => if Ascii.eqb c "/" then "_"%char else c in
  let key := replace "/" "_" artist +:+ "-" +:+ replace "/" "_" title in
  cached_filename h artist title = lyrics_dir h +:+ key
  /\ occurs "/" key = false
  /\ String.length (replace "/" "_" artist) = String.length artist
  /\ String.length (replace "/" "_" title) = String.length title
  /\ (forall i, String.get i (replace "/" "_" artist)
                = option_map subst (String.get i artist))
  /\ (forall i, String.get i (replace "/" "_" title)
                = option_map subst (String.get i title)).
Proof.
  cbv zeta. repeat split.
  - unfold cached_filename. now rewrite !append_assoc.
  - rewrite !occurs_app, !occurs_replace by discriminate. reflexivity.
  - apply length_replace.
  - apply length_replace.
  - intros i. apply get_replace.
  - intros i. apply get_replace.
Qed.

Example cached_filename_ac_dc :
  cached_filename scenario_host "AC/DC" "T.N.T"
  = "/home/u/.cache/deadbeef/lyrics/AC_DC-T.N.T".
Proof. reflexivity. Qed.

(** ** [is_cached] *)

Lemma is_cached_some (h : host) (a t : string) (w : world) :
  is_cached h (Some a) (Some t) w
  = Ret (bool_decide (is_Some (files w !! cached_filename h a t)))
        (log (EvAccess (cached_filename h a t)) w).
Proof. reflexivity. Qed.

(** C10: when the artist pointer or the title pointer is null, [is_cached]
    returns false and does nothing else: it is defined (no null pointer
    reaches a [std::string] constructor) and the world, with its trace, is
    the one it started from, so no key was derived and [access] was not
    called. *)
Theorem is_cached_null (h : host) (artist title : cstr) (w : world) :
  artist = None \/ title = None ->
  is_cached h artist title w = Ret false w.
Proof.
  intros [-> | ->]; [reflexivity|].
  destruct artist; reflexivity.
Qed.

Lemma is_cached_null_witness :
  (Some "AC/DC" = None \/ (None : cstr) = None)
  /\ is_cached scenario_host (Some "AC/DC") None fresh_world = Ret false fresh_world.
Proof.
  split; [right; reflexivity|].
  apply (is_cached_null scenario_host (Some "AC/DC") None fresh_world).
  right; reflexivity.
Defined.

(** C4, as the specification states it, fails on an artist that is present
    but empty: with a file at "<cache dir>/-T.N.T", [is_cached "" "T.N.T"]
    is true. *)
Lemma is_cached_empty_artist :
  let w := quiet_world {[ "/home/u/.cache/deadbeef/lyrics/-T.N.T" := "x" ]} ∅ None in
  value_of (is_cached scenario_host (Some "") (Some "T.N.T") w) = Some true
  /\ ~ (value_of (is_cached scenario_host (Some "") (Some "T.N.T") w) = Some true
        <-> ("" <> "" /\ "T.N.T" <> ""
             /\ is_Some (files w !! cached_filename scenario_host "" "T.N.T"))).
Proof.
  cbv zeta. split; [vm_compute; reflexivity|].
  intros [Hspec _]. destruct Hspec as [Hne _]; [vm_compute; reflexivity|].
  now apply Hne.
Qed.

(** C4 (amended): [is_cached] is true exactly when both pointers are
    non-null and a file exists at the derived path; the texts may be empty.
    It is always defined, and it leaves the files as they are. *)
Theorem is_cached_iff (h : host) (artist title : cstr) (w : world) :
  (value_of (is_cached h artist title w) = Some true
   <-> exists a t, artist = Some a /\ title = Some t
                   /\ is_Some (files w !! cached_filename h a t))
  /\ (exists b w', is_cached h artist title w = Ret b w' /\ files w' = files w)
  /\ (artist = None \/ title = None ->
      value_of (is_cached h artist title w) = Some false).
Proof.
  destruct artist as [a|], title as [t|]; try rewrite is_cached_some; simpl.
  - split; [|split].
    + split.
      * intros [= Hb]. apply bool_decide_eq_true in Hb. eauto.
      * intros (a' & t' & [= <-] & [= <-] & Hf).
        f_equal. now apply bool_decide_eq_true.
    + eauto.
    + intros [[=] | [=]].
  - split; [|split]; [|eexists _, _; split; reflexivity|reflexivity].
    split; [intros [=]|intros (a' & t' & _ & [=] & _)].
  - split; [|split]; [|eexists _, _; split; reflexivity|reflexivity].
    split; [intros [=]|intros (a' & t' & [=] & _)].
  - split; [|split]; [|eexists _, _; split; reflexivity|reflexivity].
    split; [intros [=]|intros (a' & t' & [=] & _)].
Qed.

Lemma is_cached_iff_witness :
  value_of (is_cached scenario_host (Some "AC/DC") None fresh_world) = Some false.
Proof.
  apply (is_cached_iff scenario_host (Some "AC/DC") None fresh_world).
  right; reflexivity.
Defined.

(** Membership in a concrete set, settled by evaluation. *)
Ltac by_evaluation :=
  match goal with
  | |- ?x ∉ ?X => apply (bool_decide_eq_false_1 (x ∈ X)); vm_compute; reflexivity
  | |- ?P => apply (bool_decide_eq_true_1 P); vm_compute; reflexivity
  end.

(** ** [save_cached_lyrics] and [load_cached_lyrics] *)

Lemma stored_bytes_all (r : option nat) (data : string) :
  (forall n, r = Some n -> String.length data <= n) ->
  stored_bytes r data = data.
Proof.
  intros Hroom. destruct r as [n|]; simpl; [|reflexivity].
  apply take_bytes_all. now apply Hroom.
Qed.

Lemma save_cached_lyrics_closed (h : host) (a t lyrics : string) (w : world) :
  let path := cached_filename h a t in
  path ∈ unwritable w ->
  save_cached_lyrics h a t lyrics w
  = Ret false
        (log (EvCerr ("lyricbar: could not open file for writing: " +:+ path +:+ nl))
             (log (EvOpenWrite path false) w)).
Proof.
  intros path Hin. unfold save_cached_lyrics, bind, ofstream_open.
  fold path. rewrite bool_decide_eq_true_2 by exact Hin. reflexivity.
Qed.

Lemma save_cached_lyrics_open (h : host) (a t lyrics : string) (w : world) :
  let path := cached_filename h a t in
  let stored := stored_bytes (room w) lyrics in
  path ∉ unwritable w ->
  save_cached_lyrics h a t lyrics w
  = Ret true
        (World (<[path := stored]> (files w)) (unwritable w) (unreadable w) (room w)
               (trace w ++ [EvOpenWrite path true; EvWrite path stored])).
Proof.
  intros path stored Hnin. unfold save_cached_lyrics, bind, ofstream_open.
  fold path. rewrite bool_decide_eq_false_2 by exact Hnin.
  unfold ofstream_write, ret, log, set_files; simpl.
  rewrite lookup_insert_eq, insert_insert_eq; simpl. fold stored.
  now rewrite <- app_assoc.
Qed.

Lemma load_cached_lyrics_some (h : host) (a t : string) (w : world) :
  let path := cached_filename h a t in
  let opened := log (EvRead path)
                    (log (EvDebug ("filename = '" +:+ path +:+ "'" +:+ nl)) w) in
  load_cached_lyrics h (Some a) (Some t) w
  = match files w !! path with
    | Some content =>
        if bool_decide (path ∈ unreadable w)
        then Ret None (log (EvDebug "Failed to open file: Permission denied") opened)
        else Ret (Some content) opened
    | None =>
        Ret None (log (EvDebug "Failed to open file: No such file or directory") opened)
    end.
Proof.
  cbv zeta. unfold load_cached_lyrics, bind, file_get_contents; simpl.
  destruct (files w !! cached_filename h a t) as [content|]; [|reflexivity].
  destruct (bool_decide _); reflexivity.
Qed.

(** C5, as the specification states it, fails on a write that the device
    cuts short: with room for two bytes the stream stores "He" of "Hello",
    and [save_cached_lyrics] still returns true. *)
Lemma save_cached_lyrics_short_write :
  let w := quiet_world ∅ ∅ (Some 2) in
  let path := cached_filename scenario_host "AC/DC" "T.N.T" in
  (exists w', save_cached_lyrics scenario_host "AC/DC" "T.N.T" "Hello" w = Ret true w'
              /\ files w' !! path = Some "He")
  /\ ~ (stored_bytes (room w) "Hello" <> "Hello" ->
        value_of (save_cached_lyrics scenario_host "AC/DC" "T.N.T" "Hello" w)
        = Some false).
Proof.
  cbv zeta. split.
  - eexists. split; [vm_compute; reflexivity|]. vm_compute. reflexivity.
  - intros Hspec. assert (Hshort : stored_bytes (Some 2) "Hello" <> "Hello")
      by (vm_compute; discriminate).
    specialize (Hspec Hshort). vm_compute in Hspec. discriminate.
Qed.

(** C5 (amended): [save_cached_lyrics] returns false exactly when the file
    cannot be opened for writing; it then reports the failure on [cerr],
    writes nothing and leaves every file as it was.  Once the file is open
    it returns true, whether or not the write that follows stores the whole
    text: the file then holds what the device accepted, any earlier content
    being gone. *)
Theorem save_cached_lyrics_result (h : host) (a t lyrics : string) (w : world) :
  let path := cached_filename h a t in
  exists b w',
    save_cached_lyrics h a t lyrics w = Ret b w'
    /\ (b = false <-> path ∈ unwritable w)
    /\ (path ∈ unwritable w ->
        files w' = files w
        /\ trace w' = (trace w ++
             [EvOpenWrite path false;
              EvCerr ("lyricbar: could not open file for writing: " +:+ path +:+ nl)])%list)
    /\ (path ∉ unwritable w ->
        files w' = <[path := stored_bytes (room w) lyrics]> (files w)
        /\ trace w' = (trace w ++
             [EvOpenWrite path true; EvWrite path (stored_bytes (room w) lyrics)])%list).
Proof.
  intros path. destruct (decide (path ∈ unwritable w)) as [Hin|Hnin].
  - eexists _, _. split; [apply save_cached_lyrics_closed; exact Hin|].
    split; [tauto|]. split; [|tauto].
    intros _. simpl. split; [reflexivity|]. now rewrite <- app_assoc.
  - eexists _, _. split; [apply save_cached_lyrics_open; exact Hnin|].
    split; [split; [discriminate|tauto]|]. split; [tauto|].
    intros _. simpl. split; reflexivity.
Qed.

Lemma save_cached_lyrics_result_witness :
  exists b w',
    save_cached_lyrics scenario_host "AC/DC" "T.N.T" "Hello"
      (quiet_world ∅ {[ "/home/u/.cache/deadbeef/lyrics/AC_DC-T.N.T" ]} None)
    = Ret b w'
    /\ b = false /\ files w' = ∅.
Proof.
  destruct (save_cached_lyrics_result scenario_host "AC/DC" "T.N.T" "Hello"
              (quiet_world ∅ {[ "/home/u/.cache/deadbeef/lyrics/AC_DC-T.N.T" ]} None))
    as (b & w' & Hrun & Hb & Hclosed & _).
  assert (Hin : cached_filename scenario_host "AC/DC" "T.N.T"
                ∈ unwritable (quiet_world ∅ {[ "/home/u/.cache/deadbeef/lyrics/AC_DC-T.N.T" ]} None))
    by by_evaluation.
  exists b, w'. split; [exact Hrun|]. split; [now apply Hb|].
  now apply Hclosed.
Defined.

(** C6, as the specification states it, fails when the file cannot be
    opened for writing: nothing is stored, and the read that follows finds
    no entry. *)
Lemma save_then_load_unwritable :
  let w := quiet_world ∅ {[ "/home/u/.cache/deadbeef/lyrics/AC_DC-T.N.T" ]} None in
  ~ (exists b w1,
       save_cached_lyrics scenario_host "AC/DC" "T.N.T" "Hello" w = Ret b w1
       /\ value_of (load_cached_lyrics scenario_host (Some "AC/DC") (Some "T.N.T") w1)
          = Some (Some "Hello")).
Proof.
  cbv zeta. intros (b & w1 & Hsave & Hload).
  vm_compute in Hsave. injection Hsave as <- <-.
  vm_compute in Hload. discriminate.
Qed.

(** Each condition of the round trip is needed: a device that cuts the
    write short, or a file that cannot be read back, also breaks it. *)
Example save_then_load_short_write :
  let w := quiet_world ∅ ∅ (Some 2) in
  exists w1,
    save_cached_lyrics scenario_host "AC/DC" "T.N.T" "Hello" w = Ret true w1
    /\ value_of (load_cached_lyrics scenario_host (Some "AC/DC") (Some "T.N.T") w1)
       = Some (Some "He").
Proof. eexists. split; vm_compute; reflexivity. Qed.

Example save_then_load_unreadable :
  let path := "/home/u/.cache/deadbeef/lyrics/AC_DC-T.N.T" in
  let w := World {[ path := "old" ]} ∅ {[ path ]} None [] in
  exists w1,
    save_cached_lyrics scenario_host "AC/DC" "T.N.T" "Hello" w = Ret true w1
    /\ files w1 !! path = Some "Hello"
    /\ value_of (load_cached_lyrics scenario_host (Some "AC/DC") (Some "T.N.T") w1)
       = Some None.
Proof. eexists. split; [|split]; vm_compute; reflexivity. Qed.

(** C6 (amended): when the file can be opened for writing, the device takes
    the whole text and the file can be read, [save_cached_lyrics] followed
    at once by [load_cached_lyrics] on the same artist and title returns
    exactly the text saved, whatever the entry held before. *)
Theorem save_then_load (h : host) (a t text : string) (w : world) :
  let path := cached_filename h a t in
  path ∉ unwritable w ->
  (forall n, room w = Some n -> String.length text <= n) ->
  path ∉ unreadable w ->
  exists w1 w2,
    save_cached_lyrics h a t text w = Ret true w1
    /\ load_cached_lyrics h (Some a) (Some t) w1 = Ret (Some text) w2.
Proof.
  intros path Hopen Hroom Hread.
  eexists _, _. split; [apply save_cached_lyrics_open; exact Hopen|].
  rewrite load_cached_lyrics_some; simpl. fold path.
  rewrite lookup_insert_eq, bool_decide_eq_false_2 by exact Hread.
  rewrite stored_bytes_all by exact Hroom. reflexivity.
Qed.

Lemma save_then_load_witness :
  let w := quiet_world {[ "/home/u/.cache/deadbeef/lyrics/AC_DC-T.N.T" := "old" ]} ∅ (Some 5) in
  exists w1 w2,
    save_cached_lyrics scenario_host "AC/DC" "T.N.T" "Hello" w = Ret true w1
    /\ load_cached_lyrics scenario_host (Some "AC/DC") (Some "T.N.T") w1
       = Ret (Some "Hello") w2.
Proof.
  apply (save_then_load scenario_host "AC/DC" "T.N.T" "Hello").
  - by_evaluation.
  - intros n [= <-]. simpl. lia.
  - by_evaluation.
Defined.

(** ** The script provider *)

Lemma after_nil (w : world) : after [] w = w.
Proof. destruct w. unfold after; simpl. now rewrite app_nil_r. Qed.

Lemma log_after (e : event) (w : world) : log e w = after [e] w.
Proof. reflexivity. Qed.

Lemma after_after (evs1 evs2 : list event) (w : world) :
  after evs2 (after evs1 w) = after (evs1 ++ evs2) w.
Proof. unfold after; simpl. now rewrite app_assoc. Qed.

#[local] Opaque BUF_SIZE.

(** Closes a goal that equates two runs of straight-line code. *)
Ltac run_done :=
  unfold bind, cerr, debug_out, set_lyrics, pl_lock, pl_unlock, tf_free, emit,
    ret, log, after, set_files;
  simpl; rewrite <- ?app_assoc; simpl; reflexivity.

(** Every run of the provider, stage by stage. *)
Lemma get_lyrics_from_script_run (h : host) (it : track) (w : world) :
  get_lyrics_from_script h it w
  = let script := script_of h in
    if string_empty script then Ret None w
    else
      match tf_compile_host h script with
      | None => Ret None (after [EvTfCompile script; EvCerr msg_invalid_command] w)
      | Some code =>
          let evaluated := [EvTfCompile script; EvTfEval code it; EvTfFree code] in
          match tf_expand h code it with
          | None => Ret None (after (evaluated ++ [EvCerr msg_invalid_command]) w)
          | Some text =>
              let spawned := evaluated ++ [EvSpawn (command_of text)] in
              match run_command h (command_of text) with
              | SpawnError what =>
                  Ret None (after (spawned ++ [EvCerr ("lyricbar: " +:+ what +:+ nl)]) w)
              | SpawnDone out status =>
                  if string_empty out || negb (status =? 0)%Z
                  then Ret None (after spawned w)
                  else if negb (utf8_validate h out)
                       then Ret None (after (spawned ++ [EvCerr msg_invalid_utf8]) w)
                       else Ret (Some out) (after spawned w)
              end
          end
      end.
Proof.
  cbv zeta. unfold get_lyrics_from_script. fold (script_of h).
  destruct (string_empty (script_of h)); [reflexivity|].
  unfold bind at 1. unfold tf_compile, bind at 1, emit, ret.
  destruct (tf_compile_host h (script_of h)) as [code|]; [|run_done].
  unfold bind at 1. unfold tf_eval, bind at 1, emit, ret.
  destruct (tf_expand h code it) as [text|]; [|run_done].
  unfold bind at 1. unfold tf_free, emit. unfold fst, snd.
  fold (command_of text).
  replace (Z.of_nat (String.length (command_of text)) <? 0)%Z with false
    by (symmetry; apply Z.ltb_ge; lia).
  rewrite Nat2Z.id, resize_length.
  unfold bind at 1. unfold spawn_command_line_sync, bind at 1, emit, ret.
  destruct (run_command h (command_of text)) as [what|out status];
    [run_done|].
  destruct (string_empty out || negb (status =? 0)%Z); [run_done|].
  destruct (negb (utf8_validate h out)); run_done.
Qed.

Lemma take_bytes_empty (n : nat) : take_bytes n "" = "".
Proof. destruct n; reflexivity. Qed.

Lemma script_of_unset (h : host) :
  conf_value h "lyricbar.customcmd" = None
  \/ conf_value h "lyricbar.customcmd" = Some "" ->
  script_of h = "".
Proof.
  unfold script_of, conf_get_str. intros [-> | ->]; simpl; [reflexivity|].
  apply take_bytes_empty.
Qed.

Lemma script_of_value (h : host) :
  script_of h
  = take_bytes (BUF_SIZE - 1) (default "" (conf_value h "lyricbar.customcmd")).
Proof.
  unfold script_of, conf_get_str.
  destruct (conf_value h "lyricbar.customcmd"); simpl; [reflexivity|].
  symmetry. apply take_bytes_empty.
Qed.

Lemma buf_size_positive : 0 < BUF_SIZE.
Proof. with_strategy transparent [BUF_SIZE] (unfold BUF_SIZE); lia. Qed.

Lemma length_take_buffer (s : string) :
  String.length (take_bytes (BUF_SIZE - 1) s) < BUF_SIZE.
Proof. rewrite length_take_bytes. pose proof buf_size_positive. lia. Qed.

(** C8: with the command template unset or empty, the provider returns
    absent at once: the world it leaves is the world it found, so no
    subprocess was spawned and nothing was written to [cerr]. *)
Theorem script_disabled (h : host) (it : track) (w : world) :
  conf_value h "lyricbar.customcmd" = None
  \/ conf_value h "lyricbar.customcmd" = Some "" ->
  get_lyrics_from_script h it w = Ret None w.
Proof.
  intros Hconf. rewrite get_lyrics_from_script_run. cbv zeta.
  now rewrite (script_of_unset h Hconf).
Qed.

Lemma script_disabled_witness :
  get_lyrics_from_script (example_host None echo_hello) 1 fresh_world
  = Ret None fresh_world
  /\ get_lyrics_from_script (example_host (Some "") echo_hello) 1 fresh_world
     = Ret None fresh_world.
Proof.
  split.
  - apply (script_disabled (example_host None echo_hello) 1 fresh_world).
    left; reflexivity.
  - apply (script_disabled (example_host (Some "") echo_hello) 1 fresh_world).
    right; reflexivity.
Defined.

(** Splits a goal and its hypotheses into atoms and closes each by
    congruence. *)
Ltac settle :=
  repeat match goal with
         | |- _ /\ _ => split
         | |- _ <-> _ => split
         | |- forall _, _ => intro
         | H : _ /\ _ |- _ => destruct H
         | H : _ \/ _ |- _ => destruct H
         | H : SpawnDone _ _ = SpawnDone _ _ |- _ => injection H as ? ?; subst
         | H : Some _ = Some _ |- _ => injection H as ?; subst
         end;
  try reflexivity; try congruence; try (exfalso; congruence).

(** C7: once the command has been spawned, its output is accepted exactly
    when the exit status is zero, the output is non-empty and the output is
    valid UTF-8, and what is accepted is that output.  A non-zero status or
    an empty output is rejected without any diagnostic; an output that is
    not valid UTF-8 is rejected with a diagnostic of its own, which is not
    the one of a bad template; a failed spawn is rejected with the message
    of the error. *)
Theorem script_output_acceptance (h : host) (it : track) (w : world)
    (code : tf_code) (text : string) :
  string_empty (script_of h) = false ->
  tf_compile_host h (script_of h) = Some code ->
  tf_expand h code it = Some text ->
  exists res evs,
    get_lyrics_from_script h it w = Ret res (after evs w)
    /\ (forall out, res = Some out <->
          run_command h (command_of text) = SpawnDone out 0
          /\ out <> "" /\ utf8_validate h out = true)
    /\ (forall out status,
          run_command h (command_of text) = SpawnDone out status ->
          (status <> 0%Z \/ out = "" -> res = None /\ diagnostics evs = [])
          /\ (status = 0%Z -> out <> "" -> utf8_validate h out = false ->
              res = None /\ diagnostics evs = [msg_invalid_utf8])
          /\ (status = 0%Z -> out <> "" -> utf8_validate h out = true ->
              res = Some out /\ diagnostics evs = []))
    /\ (forall what,
          run_command h (command_of text) = SpawnError what ->
          res = None /\ diagnostics evs = ["lyricbar: " +:+ what +:+ nl])
    /\ msg_invalid_utf8 <> msg_invalid_command.
Proof.
  intros Hscript Hcompile Hexpand.
  rewrite get_lyrics_from_script_run. cbv zeta.
  rewrite Hscript, Hcompile, Hexpand.
  assert (Hmsg : msg_invalid_utf8 <> msg_invalid_command) by (vm_compute; discriminate).
  destruct (run_command h (command_of text)) as [what|out status] eqn:Hrun.
  { eexists _, _. split; [reflexivity|]. unfold diagnostics; simpl. settle. }
  destruct (string_empty out) eqn:Hout; simpl.
  { apply string_empty_true in Hout. subst out.
    eexists _, _. split; [reflexivity|]. unfold diagnostics; simpl. settle. }
  apply string_empty_false in Hout.
  destruct (status =? 0)%Z eqn:Hstatus; simpl.
  2: { apply Z.eqb_neq in Hstatus.
       eexists _, _. split; [reflexivity|]. unfold diagnostics; simpl. settle. }
  apply Z.eqb_eq in Hstatus. subst status.
  destruct (utf8_validate h out) eqn:Hvalid; simpl.
  - eexists _, _. split; [reflexivity|]. unfold diagnostics; simpl. settle.
  - eexists _, _. split; [reflexivity|]. unfold diagnostics; simpl. settle.
Qed.

Lemma script_output_acceptance_witness :
  exists res evs,
    get_lyrics_from_script scenario_host 1 fresh_world = Ret res (after evs fresh_world)
    /\ res = Some "Hello" /\ diagnostics evs = [].
Proof.
  destruct (script_output_acceptance scenario_host 1 fresh_world
              "echo Hello" "echo Hello")
    as (res & evs & Hrun & _ & Hdone & _);
    [vm_compute; reflexivity..|].
  exists res, evs. split; [exact Hrun|].
  apply (Hdone "Hello" 0%Z); [vm_compute; reflexivity|reflexivity|discriminate|].
  vm_compute. reflexivity.
Defined.

(** A shell whose output is the single byte 0xFF, with status 0: the output
    is rejected with the UTF-8 diagnostic. *)
Example script_output_invalid_utf8 :
  let h := example_host (Some "echo Hello")
             (fun _ => SpawnDone (String (ascii_of_nat 255) "") 0) in
  option_map (fun w => diagnostics (trace w))
             (world_of (get_lyrics_from_script h 1 fresh_world))
  = Some [msg_invalid_utf8]
  /\ value_of (get_lyrics_from_script h 1 fresh_world) = Some None.
Proof. vm_compute. split; reflexivity. Qed.

(** A shell that prints "Hello" but exits with status 1: the output is
    rejected in silence. *)
Example script_output_failed_status :
  let h := example_host (Some "echo Hello") (fun _ => SpawnDone "Hello" 1) in
  option_map (fun w => diagnostics (trace w))
             (world_of (get_lyrics_from_script h 1 fresh_world))
  = Some []
  /\ value_of (get_lyrics_from_script h 1 fresh_world) = Some None.
Proof. vm_compute. split; reflexivity. Qed.

(** Whatever the provider does, it compiles nothing but [script_of] and
    spawns nothing but a [command_of]. *)
Lemma script_events (h : host) (it : track) (w : world) :
  exists res evs,
    get_lyrics_from_script h it w = Ret res (after evs w)
    /\ Forall (from_buffer h) evs
    /\ Forall (fun e => is_fs_event e = false) evs.
Proof.
  rewrite get_lyrics_from_script_run. cbv zeta.
  destruct (string_empty (script_of h)).
  { exists None, []. rewrite after_nil. repeat constructor. }
  destruct (tf_compile_host h (script_of h)) as [code|];
    [destruct (tf_expand h code it) as [text|];
     [destruct (run_command h (command_of text)) as [what|out status];
      [|destruct (string_empty out || negb (status =? 0)%Z);
        [|destruct (negb (utf8_validate h out))]]|]|];
    (eexists _, _; split; [reflexivity|]);
    (split; repeat (constructor; simpl; eauto)).
Qed.

Lemma buf_size_room : 1 < BUF_SIZE.
Proof. with_strategy transparent [BUF_SIZE] (unfold BUF_SIZE); lia. Qed.

Lemma take_bytes_nonempty (n : nat) (s : string) :
  0 < n -> s <> "" -> string_empty (take_bytes n s) = false.
Proof.
  intros Hn Hs. destruct n as [|n]; [lia|].
  destruct s as [|c s]; [now contradiction Hs|reflexivity].
Qed.

(** C9: a configured, non-empty command template is read into the
    4096-byte buffer and compiled from there: the first thing the provider
    does is to hand [tf_compile] what fits the buffer with its terminating
    NUL, that is the first 4095 bytes of the configured text, so a template
    of 4096 bytes or more is compiled cut short; it compiles nothing else.
    When the template compiles and expands, the command handed to the shell
    is what fits the same buffer of the expansion, its first 4095 bytes;
    nothing else is ever spawned, so every command is shorter than the
    buffer. *)
Theorem script_buffer_bound (h : host) (it : track) (w : world)
    (configured : string) :
  conf_value h "lyricbar.customcmd" = Some configured ->
  configured <> "" ->
  let script := take_bytes (BUF_SIZE - 1) configured in
  BUF_SIZE = 4096
  /\ String.length script = Nat.min (BUF_SIZE - 1) (String.length configured)
  /\ (BUF_SIZE <= String.length configured ->
      String.length script = BUF_SIZE - 1
      /\ String.length script < String.length configured)
  /\ exists res tail,
       get_lyrics_from_script h it w = Ret res (after (EvTfCompile script :: tail) w)
       /\ (forall script', ~ In (EvTfCompile script') tail)
       /\ (forall code text,
             tf_compile_host h script = Some code ->
             tf_expand h code it = Some text ->
             exists rest,
               tail = EvTfEval code it :: EvTfFree code
                      :: EvSpawn (take_bytes (BUF_SIZE - 1) text) :: rest
               /\ forall command_line, ~ In (EvSpawn command_line) rest)
       /\ (forall command_line,
             In (EvSpawn command_line) tail ->
             String.length command_line < BUF_SIZE
             /\ exists code text,
                  tf_compile_host h script = Some code
                  /\ tf_expand h code it = Some text
                  /\ command_line = take_bytes (BUF_SIZE - 1) text).
Proof.
  intros Hconf Hne script.
  split; [with_strategy transparent [BUF_SIZE] reflexivity|].
  split; [apply length_take_bytes|].
  split.
  { intros Hlong. subst script. rewrite length_take_bytes.
    pose proof buf_size_room. lia. }
  assert (Hscript : script_of h = script).
  { rewrite script_of_value, Hconf. reflexivity. }
  assert (Hfull : string_empty script = false).
  { apply take_bytes_nonempty; [pose proof buf_size_room; lia|exact Hne]. }
  rewrite get_lyrics_from_script_run. cbv zeta. rewrite Hscript, Hfull.
  destruct (tf_compile_host h script) as [code|] eqn:Hcompile.
  2: { eexists _, _. split; [reflexivity|]. split; [|split].
       - intros script' [[=]|[]].
       - intros code text [=].
       - intros command_line [[=]|[]]. }
  destruct (tf_expand h code it) as [text|] eqn:Hexpand.
  2: { eexists _, _. split; [reflexivity|]. split; [|split].
       - intros script' [[=]|[[=]|[[=]|[]]]].
       - intros code' text [= <-]. rewrite Hexpand. intros [=].
       - intros command_line [[=]|[[=]|[[=]|[]]]]. }
  fold (command_of text).
  assert (Hshape : forall res errors,
            Forall (fun e => exists msg, e = EvCerr msg) errors ->
            exists (res' : option string) tail,
              Ret res (after ([EvTfCompile script; EvTfEval code it; EvTfFree code]
                              ++ [EvSpawn (command_of text)] ++ errors) w)
              = Ret res' (after (EvTfCompile script :: tail) w)
              /\ (forall script', ~ In (EvTfCompile script') tail)
              /\ (forall code' text',
                    Some code = Some code' -> tf_expand h code' it = Some text' ->
                    exists rest,
                      tail = EvTfEval code' it :: EvTfFree code'
                             :: EvSpawn (take_bytes (BUF_SIZE - 1) text') :: rest
                      /\ forall command_line, ~ In (EvSpawn command_line) rest)
              /\ (forall command_line,
                    In (EvSpawn command_line) tail ->
                    String.length command_line < BUF_SIZE
                    /\ exists code' text',
                         Some code = Some code'
                         /\ tf_expand h code' it = Some text'
                         /\ command_line = take_bytes (BUF_SIZE - 1) text')).
  { intros res errors Herrors.
    assert (Hquiet : forall e, In e errors -> exists msg, e = EvCerr msg).
    { intros e Hin. rewrite Forall_forall in Herrors.
      now apply Herrors, list_elem_of_In. }
    exists res, ([EvTfEval code it; EvTfFree code; EvSpawn (command_of text)] ++ errors).
    split; [reflexivity|]. split; [|split].
    - intros script' [[=]|[[=]|[[=]|Hin]]]. apply Hquiet in Hin as [msg [=]].
    - intros code' text' [= <-] Hexp. rewrite Hexpand in Hexp.
      injection Hexp as <-. exists errors. split; [reflexivity|].
      intros command_line Hin. apply Hquiet in Hin as [msg [=]].
    - intros command_line [[=]|[[=]|[[= <-]|Hin]]].
      + split; [apply length_take_buffer|]. exists code, text. auto.
      + apply Hquiet in Hin as [msg [=]]. }
  destruct (run_command h (command_of text)) as [what|out status].
  - destruct (Hshape None [EvCerr ("lyricbar: " +:+ what +:+ nl)])
      as (res & tail & Heq & Hrest); [repeat constructor; eauto|].
    exists res, tail. split; [|exact Hrest].
    rewrite <- Heq. now rewrite <- !app_assoc.
  - destruct (string_empty out || negb (status =? 0)%Z);
      [|destruct (negb (utf8_validate h out))].
    + destruct (Hshape None []) as (res & tail & Heq & Hrest); [constructor|].
      exists res, tail. split; [|exact Hrest]. rewrite <- Heq. now rewrite app_nil_r.
    + destruct (Hshape None [EvCerr msg_invalid_utf8])
        as (res & tail & Heq & Hrest); [repeat constructor; eauto|].
      exists res, tail. split; [|exact Hrest].
      rewrite <- Heq. now rewrite <- !app_assoc.
    + destruct (Hshape (Some out) []) as (res & tail & Heq & Hrest); [constructor|].
      exists res, tail. split; [|exact Hrest]. rewrite <- Heq. now rewrite app_nil_r.
Qed.

Lemma script_buffer_bound_witness :
  let configured := string_fill 5000 "a" in
  let script := take_bytes (BUF_SIZE - 1) configured in
  let h := example_host (Some configured) echo_hello in
  String.length script = 4095
  /\ exists res tail,
       get_lyrics_from_script h 1 fresh_world
       = Ret res (after (EvTfCompile script :: tail) fresh_world)
       /\ In (EvSpawn (take_bytes (BUF_SIZE - 1) script)) tail.
Proof.
  intros configured script h.
  split; [vm_compute; reflexivity|].
  destruct (script_buffer_bound h 1 fresh_world configured)
    as (_ & _ & _ & res & tail & Hrun & _ & Hspawn & _).
  - reflexivity.
  - subst configured. change 5000 with (S 4999). discriminate.
  - exists res, tail. split; [exact Hrun|].
    destruct (Hspawn script script) as (rest & -> & _); [reflexivity..|].
    right; right; left. reflexivity.
Defined.

(** ** The resolver *)

Lemma elvis_none_r (a : cstr) : elvis a None = a.
Proof. destruct a; reflexivity. Qed.

Lemma get_lyrics_from_metadata_run (h : host) (it : track) (w : world) :
  get_lyrics_from_metadata h it w
  = Ret (first_present h it lyrics_tags) (after [EvLock; EvUnlock] w).
Proof.
  unfold get_lyrics_from_metadata, first_present, lyrics_tags; simpl.
  rewrite elvis_none_r. run_done.
Qed.

(** [first_present] is the value of the first key that is present. *)
Lemma first_present_some (h : host) (it : track) (keys : list string) (text : string) :
  first_present h it keys = Some text <->
  exists skipped key rest,
    keys = skipped ++ key :: rest
    /\ pl_find_meta h it key = Some text
    /\ Forall (fun k => pl_find_meta h it k = None) skipped.
Proof.
  induction keys as [|k keys IH]; simpl.
  - split; [discriminate|]. intros ([|? ?] & ? & ? & [=] & _).
  - destruct (pl_find_meta h it k) as [v|] eqn:Hk; simpl.
    + split.
      * intros [= ->]. exists [], k, keys.
        split; [reflexivity|]. split; [exact Hk|constructor].
      * intros ([|k' skipped] & key & rest & Heq & Hkey & Hskip);
          injection Heq as <- ->.
        -- congruence.
        -- inversion Hskip; congruence.
    + rewrite IH. split.
      * intros (skipped & key & rest & -> & Hkey & Hskip).
        exists (k :: skipped), key, rest.
        split; [reflexivity|]. split; [exact Hkey|now constructor].
      * intros ([|k' skipped] & key & rest & Heq & Hkey & Hskip);
          injection Heq as <- ->.
        -- congruence.
        -- inversion Hskip; subst. exists skipped, key, rest. auto.
Qed.

Lemma first_present_is_some (h : host) (it : track) (keys : list string) :
  (exists key, In key keys /\ is_Some (pl_find_meta h it key)) ->
  is_Some (first_present h it keys).
Proof.
  induction keys as [|k keys IH]; simpl; intros (key & Hin & Hkey).
  - destruct Hin.
  - destruct (pl_find_meta h it k) as [v|] eqn:Hk; simpl; [eauto|].
    apply IH. destruct Hin as [<-|Hin]; [|eauto].
    rewrite Hk in Hkey. now destruct Hkey.
Qed.

(** C3, as the specification states it, fails on a track whose
    "unsynced lyrics" tag is present but empty while its "lyrics" tag holds
    text: the resolver pushes the empty text of the first tag, which is the
    text of no non-empty tag. *)
Lemma metadata_hit_empty_tag :
  pl_find_meta scenario_host 2 "lyrics" = Some "la la la"
  /\ exists w',
       update_lyrics scenario_host 2 fresh_world = Ret tt w'
       /\ ui_pushes (trace w') = [(2, "")]
       /\ ~ (exists key text,
               In key lyrics_tags
               /\ pl_find_meta scenario_host 2 key = Some text
               /\ text <> ""
               /\ ui_pushes (trace w') = [(2, text)]).
Proof.
  split; [reflexivity|]. eexists. split; [vm_compute; reflexivity|].
  split; [reflexivity|].
  intros (key & text & _ & _ & Hne & Hpush).
  vm_compute in Hpush. injection Hpush as <-. now apply Hne.
Qed.

(** C3 (amended): when the track carries one of the lyrics tags, be its
    value empty or not, [update_lyrics] pushes the value of the first tag
    present in the order "unsynced lyrics", "UNSYNCEDLYRICS", "lyrics", and
    returns: that is its only push, it touches no file (no read, no open, no
    write), and the cache is as it was, whatever it held. *)
Theorem metadata_hit (h : host) (it : track) (w : world) :
  (exists key, In key lyrics_tags /\ is_Some (pl_find_meta h it key)) ->
  exists text w' evs,
    update_lyrics h it w = Ret tt w'
    /\ (exists skipped key rest,
          lyrics_tags = skipped ++ key :: rest
          /\ pl_find_meta h it key = Some text
          /\ Forall (fun k => pl_find_meta h it k = None) skipped)
    /\ w' = after evs w
    /\ ui_pushes evs = [(it, text)]
    /\ Forall (fun e => is_fs_event e = false) evs
    /\ files w' = files w.
Proof.
  intros Htag. apply first_present_is_some in Htag as [text Hfirst].
  exists text, (after [EvLock; EvUnlock; EvSetLyrics it text] w),
    [EvLock; EvUnlock; EvSetLyrics it text].
  split; [|split; [now apply first_present_some|split; [reflexivity|]]].
  - unfold update_lyrics, bind at 1.
    rewrite get_lyrics_from_metadata_run, Hfirst. run_done.
  - split; [reflexivity|]. split; [repeat constructor|reflexivity].
Qed.

Lemma metadata_hit_witness :
  exists text w' evs,
    update_lyrics scenario_host 2
      (quiet_world {[ "/home/u/.cache/deadbeef/lyrics/AC_DC-T.N.T" := "cached" ]} ∅ None)
    = Ret tt w'
    /\ ui_pushes evs = [(2, text)]
    /\ files w' = {[ "/home/u/.cache/deadbeef/lyrics/AC_DC-T.N.T" := "cached" ]}.
Proof.
  destruct (metadata_hit scenario_host 2
              (quiet_world {[ "/home/u/.cache/deadbeef/lyrics/AC_DC-T.N.T" := "cached" ]} ∅ None))
    as (text & w' & evs & Hrun & _ & _ & Hpush & _ & Hfiles).
  - exists "lyrics". split; [right; right; left; reflexivity|].
    exists "la la la". reflexivity.
  - exists text, w', evs. split; [exact Hrun|]. split; [exact Hpush|exact Hfiles].
Defined.

(** The provider loop on the shipped provider list, once the provider has
    answered [text]: push, then save. *)
Lemma try_providers_hit (h : host) (it : track) (a t text : string) (w : world) :
  (forall w0, value_of (get_lyrics_from_script h it w0) = Some (Some text)) ->
  exists evs,
    Forall (fun e => is_fs_event e = false) evs
    /\ try_providers h (providers h) it (Some a) (Some t) w
       = match save_cached_lyrics h a t text (after (evs ++ [EvSetLyrics it text]) w) with
         | Ret _ w1 => Ret true w1
         | Undefined => Undefined
         end.
Proof.
  intros Hprovider.
  destruct (script_events h it w) as (res & evs & Hrun & _ & Hquiet).
  specialize (Hprovider w). rewrite Hrun in Hprovider.
  injection Hprovider as ->.
  exists evs. split; [exact Hquiet|].
  unfold providers, try_providers, bind at 1. rewrite Hrun.
  unfold bind at 1. unfold set_lyrics, emit. rewrite log_after, after_after.
  reflexivity.
Qed.

Lemma fs_event_cache_write (e : event) :
  is_fs_event e = false -> is_cache_write e = false.
Proof. destruct e; simpl; congruence. Qed.

(** C2, as the specification states it, fails when the cache file cannot
    be opened for writing: the text is pushed, the write is given up, and a
    later read of the cache finds no entry. *)
Lemma provider_hit_unwritable :
  let w := quiet_world ∅ {[ "/home/u/.cache/deadbeef/lyrics/AC_DC-T.N.T" ]} None in
  first_present scenario_host 1 lyrics_tags = None
  /\ pl_find_meta scenario_host 1 "artist" = Some "AC/DC"
  /\ pl_find_meta scenario_host 1 "title" = Some "T.N.T"
  /\ value_of (load_cached_lyrics scenario_host (Some "AC/DC") (Some "T.N.T") w)
     = Some None
  /\ (forall w0, value_of (get_lyrics_from_script scenario_host 1 w0)
                 = Some (Some "Hello"))
  /\ exists w',
       update_lyrics scenario_host 1 w = Ret tt w'
       /\ ui_pushes (trace w') = [(1, "Loading..."); (1, "Hello")]
       /\ value_of (load_cached_lyrics scenario_host (Some "AC/DC") (Some "T.N.T") w')
          <> Some (Some "Hello").
Proof.
  cbv zeta. do 4 (split; [reflexivity|]).
  split; [intros w0; vm_compute; reflexivity|].
  eexists. split; [vm_compute; reflexivity|].
  split; [reflexivity|]. vm_compute. discriminate.
Qed.

(** C2 (amended): when the track has no lyrics tag, has an artist and a
    title, the cache gives nothing and the provider answers a text, then
    [update_lyrics] pushes that text and only then opens the cache file for
    writing: no open and no write precedes the push, and what follows the
    push is the attempt to save and no further push.  If the file cannot be
    opened, the failure is reported on [cerr], the files stay as they were
    and a later [load_cached_lyrics] still gives nothing.  If it is opened,
    nothing is reported, the file holds what the device stored of the text,
    and a later [load_cached_lyrics] of the readable file returns exactly
    that: a text cut short when the device cut the write short, the text
    itself when the device took it whole. *)
Theorem provider_hit (h : host) (it : track) (a t text : string) (w : world) :
  first_present h it lyrics_tags = None ->
  pl_find_meta h it "artist" = Some a ->
  pl_find_meta h it "title" = Some t ->
  value_of (load_cached_lyrics h (Some a) (Some t) w) = Some None ->
  (forall w0, value_of (get_lyrics_from_script h it w0) = Some (Some text)) ->
  let path := cached_filename h a t in
  exists w' before saved,
    update_lyrics h it w = Ret tt w'
    /\ trace w' = trace w ++ before ++ EvSetLyrics it text :: saved
    /\ Forall (fun e => is_cache_write e = false) before
    /\ ui_pushes saved = []
    /\ (path ∉ unwritable w ->
        saved = [EvOpenWrite path true; EvWrite path (stored_bytes (room w) text)]
        /\ files w' = <[path := stored_bytes (room w) text]> (files w)
        /\ (path ∉ unreadable w ->
            value_of (load_cached_lyrics h (Some a) (Some t) w')
            = Some (Some (stored_bytes (room w) text))))
    /\ (path ∈ unwritable w ->
        saved = [EvOpenWrite path false;
                 EvCerr ("lyricbar: could not open file for writing: " +:+ path +:+ nl)]
        /\ files w' = files w
        /\ value_of (load_cached_lyrics h (Some a) (Some t) w') = Some None)
    /\ (path ∉ unwritable w ->
        (forall n, room w = Some n -> String.length text <= n) ->
        path ∉ unreadable w ->
        value_of (load_cached_lyrics h (Some a) (Some t) w') = Some (Some text)).
Proof.
  intros Hmeta Hartist Htitle Hmiss Hprovider path.
  unfold update_lyrics, bind at 1.
  rewrite get_lyrics_from_metadata_run, Hmeta, Hartist, Htitle.
  unfold bind at 1. unfold pl_lock, emit. rewrite log_after, after_after.
  unfold bind at 1. unfold pl_unlock, emit. rewrite log_after, after_after.
  cbn [is_null negb andb].
  unfold bind at 1. rewrite load_cached_lyrics_some.
  rewrite load_cached_lyrics_some in Hmiss. cbv zeta in Hmiss |- *.
  fold path in Hmiss |- *. cbn [files unreadable after].
  set (probe := [EvDebug ("filename = '" +:+ path +:+ "'" +:+ nl); EvRead path]).
  assert (Hstage : exists what,
            match files w !! path with
            | Some content =>
                if bool_decide (path ∈ unreadable w)
                then Ret None (log (EvDebug "Failed to open file: Permission denied")
                                 (log (EvRead path)
                                    (log (EvDebug ("filename = '" +:+ path +:+ "'" +:+ nl))
                                       (after (([EvLock; EvUnlock] ++ [EvLock]) ++ [EvUnlock]) w))))
                else Ret (Some content)
                       (log (EvRead path)
                          (log (EvDebug ("filename = '" +:+ path +:+ "'" +:+ nl))
                             (after (([EvLock; EvUnlock] ++ [EvLock]) ++ [EvUnlock]) w)))
            | None =>
                Ret None (log (EvDebug "Failed to open file: No such file or directory")
                            (log (EvRead path)
                               (log (EvDebug ("filename = '" +:+ path +:+ "'" +:+ nl))
                                  (after (([EvLock; EvUnlock] ++ [EvLock]) ++ [EvUnlock]) w))))
            end
            = Ret None (after ([EvLock; EvUnlock; EvLock; EvUnlock] ++ probe ++ [EvDebug what]) w)).
  { destruct (files w !! path) as [content|];
      [destruct (bool_decide (path ∈ unreadable w)); [|discriminate]|];
      eexists; rewrite !log_after, !after_after; reflexivity. }
  destruct Hstage as [what ->].
  unfold bind at 1. unfold set_lyrics at 1, emit. rewrite log_after, after_after.
  unfold bind at 1.
  set (w3 := after _ w).
  destruct (try_providers_hit h it a t text w3 Hprovider) as (evs & Hquiet & ->).
  subst w3. rewrite after_after, app_assoc.
  set (before := (_ ++ _) ++ evs).
  assert (Hbefore : Forall (fun e => is_cache_write e = false) before).
  { subst before probe. apply Forall_app. split; [|eapply Forall_impl; [exact Hquiet|];
      apply fs_event_cache_write].
    repeat constructor. }
  destruct (decide (path ∈ unwritable w)) as [Hclosed|Hopen].
  - rewrite save_cached_lyrics_closed by exact Hclosed. fold path.
    rewrite !log_after, !after_after.
    eexists _, before, _. split; [reflexivity|].
    split; [cbn [trace after]; rewrite <- !app_assoc; reflexivity|].
    split; [exact Hbefore|]. split; [reflexivity|].
    split; [intros Hno; now contradiction Hno|].
    split; [|intros Hno; now contradiction Hno].
    intros _. split; [reflexivity|]. split; [reflexivity|].
    rewrite load_cached_lyrics_some. cbv zeta. fold path.
    cbn [files unreadable after].
    destruct (files w !! path) as [content|]; [|reflexivity].
    destruct (bool_decide (path ∈ unreadable w)); [reflexivity|discriminate].
  - rewrite save_cached_lyrics_open by exact Hopen. fold path.
    cbn [files unwritable unreadable room trace after].
    eexists _, before, _. split; [reflexivity|].
    split; [cbn [trace]; rewrite <- !app_assoc; reflexivity|].
    split; [exact Hbefore|]. split; [reflexivity|].
    assert (Hstored : path ∉ unreadable w ->
              value_of (load_cached_lyrics h (Some a) (Some t)
                          (World (<[path := stored_bytes (room w) text]> (files w))
                                 (unwritable w) (unreadable w) (room w)
                                 ((trace w ++ before ++ [EvSetLyrics it text])
                                  ++ [EvOpenWrite path true;
                                      EvWrite path (stored_bytes (room w) text)])))
              = Some (Some (stored_bytes (room w) text))).
    { intros Hread. rewrite load_cached_lyrics_some. cbv zeta.
      fold path. cbn [files unreadable].
      now rewrite lookup_insert_eq, bool_decide_eq_false_2 by exact Hread. }
    split; [intros _; split; [reflexivity|split; [reflexivity|exact Hstored]]|].
    split; [intros Hyes; now contradiction Hopen|].
    intros _ Hroom Hread. rewrite (Hstored Hread).
    now rewrite stored_bytes_all by exact Hroom.
Qed.

Lemma provider_hit_witness :
  exists w',
    update_lyrics scenario_host 1 fresh_world = Ret tt w'
    /\ ui_pushes (trace w') = [(1, "Loading..."); (1, "Hello")]
    /\ files w' !! "/home/u/.cache/deadbeef/lyrics/AC_DC-T.N.T" = Some "Hello"
    /\ value_of (load_cached_lyrics scenario_host (Some "AC/DC") (Some "T.N.T") w')
       = Some (Some "Hello").
Proof.
  destruct (provider_hit scenario_host 1 "AC/DC" "T.N.T" "Hello" fresh_world)
    as (w' & before & saved & Hrun & _ & _ & _ & Hopen & _ & Hget);
    [reflexivity | reflexivity | reflexivity | vm_compute; reflexivity
    | intros w0; vm_compute; reflexivity |].
  assert (Hw : cached_filename scenario_host "AC/DC" "T.N.T" ∉ unwritable fresh_world)
    by by_evaluation.
  assert (Hr : cached_filename scenario_host "AC/DC" "T.N.T" ∉ unreadable fresh_world)
    by by_evaluation.
  exists w'. split; [exact Hrun|].
  split; [vm_compute in Hrun; injection Hrun as <-; reflexivity|].
  split.
  - destruct (Hopen Hw) as (_ & -> & _). apply lookup_insert_eq.
  - apply (Hget Hw); [intros n [=]|exact Hr].
Defined.

(** With room for two bytes only, the text is pushed whole, the write is
    cut short without a word on [cerr], and the cache then gives "He". *)
Example provider_hit_short_write :
  exists w',
    update_lyrics scenario_host 1 (quiet_world ∅ ∅ (Some 2)) = Ret tt w'
    /\ ui_pushes (trace w') = [(1, "Loading..."); (1, "Hello")]
    /\ diagnostics (trace w') = []
    /\ value_of (load_cached_lyrics scenario_host (Some "AC/DC") (Some "T.N.T") w')
       = Some (Some "He").
Proof.
  eexists. split; [vm_compute; reflexivity|].
  split; [reflexivity|]. split; [reflexivity|]. vm_compute. reflexivity.
Qed.

(** The second scenario of the specification: the script exits with status
    1, the final push is "Lyrics not found" and no cache file is created. *)
Example scenario_failed_script :
  let h := example_host (Some "echo Hello") (fun _ => SpawnDone "Hello" 1) in
  exists w',
    update_lyrics h 1 fresh_world = Ret tt w'
    /\ ui_pushes (trace w') = [(1, "Loading..."); (1, "Lyrics not found")]
    /\ files w' = ∅.
Proof. eexists. split; [vm_compute; reflexivity|]. split; reflexivity. Qed.

(** * Further properties *)

#[local] Set Warnings "-clear-no-such-hyp".

(** ** [mkpath] *)

Lemma length_app (s1 s2 : string) :
  String.length (s1 +:+ s2) = String.length s1 + String.length s2.
Proof. induction s1 as [|c s1 IH]; simpl; congruence. Qed.

Lemma take_bytes_app (s1 s2 : string) :
  take_bytes (String.length s1) (s1 +:+ s2) = s1.
Proof.
  induction s1 as [|c s1 IH]; simpl; [now destruct s2|congruence].
Qed.

Lemma find_first_of_app (c : ascii) (s1 s2 : string) :
  find_first_of c (s1 +:+ s2) (String.length s1)
  = option_map (Nat.add (String.length s1)) (find_first_of c s2 0).
Proof.
  induction s1 as [|d s1 IH]; simpl.
  - now destruct (find_first_of c s2 0).
  - rewrite IH. now destruct (find_first_of c s2 0).
Qed.

Lemma append_cons (s1 : string) (c : ascii) (s2 : string) :
  s1 +:+ String c s2 = (s1 +:+ String c "") +:+ s2.
Proof. now rewrite append_assoc. Qed.

Lemma length_snoc (s : string) (c : ascii) :
  String.length (s +:+ String c "") = S (String.length s).
Proof. rewrite length_app; simpl. lia. Qed.

Section MkpathProofs.

Context {tree : Type}.
Variable mkdir : string -> Z -> tree -> option positive * tree.

Lemma mkpath_loop_pos (fuel : nat) (name : string) (mode : Z) (pos pos' : nat)
    (st : tree) :
  find_first_of "/" name pos = find_first_of "/" name pos' ->
  mkpath_loop mkdir fuel name mode pos st = mkpath_loop mkdir fuel name mode pos' st.
Proof. intros Heq. destruct fuel; simpl; [reflexivity|]. now rewrite Heq. Qed.

Lemma mkpath_loop_scan (rest seen : string) (fuel : nat) (mode : Z) (st : tree) :
  String.length rest < fuel ->
  mkpath_loop mkdir fuel (seen +:+ rest) mode (String.length seen) st
  = Some (mkdir_each mkdir (slash_prefixes_from seen rest) mode st).
Proof.
  revert seen fuel st. induction rest as [|c rest IH]; intros seen fuel st Hfuel.
  - destruct fuel as [|fuel]; [simpl in Hfuel; lia|]. simpl.
    rewrite find_first_of_app. reflexivity.
  - destruct (Ascii.eqb c "/") eqn:Hc.
    + apply Ascii.eqb_eq in Hc. subst c.
      destruct fuel as [|fuel]; [simpl in Hfuel; lia|].
      simpl in Hfuel. cbn [mkpath_loop slash_prefixes_from].
      rewrite find_first_of_app. cbn [find_first_of Ascii.eqb Bool.eqb option_map].
      rewrite Nat.add_0_r, take_bytes_app.
      rewrite append_cons, <- (length_snoc seen "/").
      destruct (string_empty seen); cbn [andb negb app mkdir_each].
      * apply IH. lia.
      * destruct (mkdir seen mode st) as [[errno|] st'].
        -- destruct (negb (errno =? EEXIST)%positive); [reflexivity|].
           apply IH. lia.
        -- apply IH. lia.
    + cbn [slash_prefixes_from]. rewrite Hc. cbn [andb app].
      rewrite (mkpath_loop_pos fuel _ mode _ (S (String.length seen))).
      * rewrite append_cons, <- (length_snoc seen c). apply IH.
        simpl in Hfuel. lia.
      * rewrite find_first_of_app. cbn [find_first_of]. rewrite Hc.
        rewrite (append_cons seen c rest), <- (length_snoc seen c).
        rewrite find_first_of_app, length_snoc.
        destruct (find_first_of "/" rest 0); simpl; [|reflexivity].
        f_equal. lia.
Qed.

Lemma mkpath_scan (name : string) (mode : Z) (st : tree) :
  mkpath mkdir name mode st
  = Some (mkdir_each mkdir (slash_prefixes name) mode st).
Proof.
  unfold mkpath, slash_prefixes.
  apply (mkpath_loop_scan name "" (S (String.length name)) mode st). lia.
Qed.

(** X1: [mkpath] always returns: its loop never needs more iterations
    than the name has bytes, plus one.  What it does is call [mkdir], shortest
    first, on every non-empty prefix of the name that ends just before a
    '/', stopping at the first failure whose [errno] is not [EEXIST] and
    returning that [errno]; if there is none it returns 0. *)
Theorem mkpath_mkdir_each (name : string) (mode : Z) (st : tree) :
  mkpath mkdir name mode st
  = Some (mkdir_each mkdir (slash_prefixes name) mode st).
Proof.
  unfold mkpath, slash_prefixes.
  change name with ("" +:+ name) at 2.
  change 0 with (String.length "").
  apply mkpath_loop_scan. lia.
Qed.

End MkpathProofs.

Lemma slash_prefixes_from_iff (rest seen dir : string) :
  In dir (slash_prefixes_from seen rest) <->
  dir <> "" /\ exists r1 r2, rest = r1 +:+ String "/" r2 /\ dir = seen +:+ r1.
Proof.
  revert seen. induction rest as [|c rest IH]; intros seen;
    cbn [slash_prefixes_from].
  - split; [intros []|]. intros (_ & [|d r1] & r2 & Heq & _); discriminate.
  - rewrite in_app_iff, IH. split.
    + intros [Hhead|(Hne & r1 & r2 & -> & ->)].
      * destruct (Ascii.eqb c "/") eqn:Hc; [|destruct Hhead].
        destruct (string_empty seen) eqn:Hseen; [destruct Hhead|].
        destruct Hhead as [<-|[]].
        apply Ascii.eqb_eq in Hc. subst c.
        split; [now apply string_empty_false|].
        exists "", rest. now rewrite append_empty_r.
      * split; [exact Hne|]. exists (String c r1), r2.
        split; [reflexivity|]. now rewrite <- append_cons.
    + intros (Hne & [|d r1] & r2 & Heq & ->); injection Heq as -> ->.
      * left. rewrite append_empty_r in Hne |- *.
        apply string_empty_false in Hne. rewrite Hne. now left.
      * right. split; [exact Hne|].
        exists r1, r2. split; [reflexivity|apply append_cons].
Qed.

Lemma slash_prefixes_elem (name dir : string) :
  In dir (slash_prefixes name) <->
  dir <> "" /\ exists rest, name = dir +:+ String "/" rest.
Proof.
  unfold slash_prefixes. rewrite slash_prefixes_from_iff. split.
  - intros (Hne & r1 & r2 & -> & ->). split; [exact Hne|]. now exists r2.
  - intros (Hne & rest & ->). split; [exact Hne|]. now exists dir, rest.
Qed.

Lemma mkdir_each_log (wanted asked : list string) (mode : Z) :
  mkdir_each mkdir_log wanted mode asked = (0%Z, asked ++ wanted).
Proof.
  revert asked. induction wanted as [|dir wanted IH]; intros asked; simpl.
  - now rewrite app_nil_r.
  - now rewrite IH, <- app_assoc.
Qed.

(** X2: the directories [mkpath] asks [mkdir] for are exactly the
    non-empty texts that are followed by a '/' in the name.  So the empty
    prefix of a leading '/' is skipped, and what follows the last '/' is
    never created: a name must end with '/' for its last component to be
    made. *)
Theorem mkpath_asks (name : string) (mode : Z) :
  exists asked,
    mkpath mkdir_log name mode [] = Some (0%Z, asked)
    /\ forall dir, In dir asked <->
                   dir <> "" /\ exists rest, name = dir +:+ String "/" rest.
Proof.
  exists (slash_prefixes name). split.
  - now rewrite mkpath_scan, mkdir_each_log.
  - apply slash_prefixes_elem.
Qed.

(** The cache directory, without the '/' that ends [lyrics_dir]. *)
Lemma lyrics_dir_slash (h : host) :
  exists base, lyrics_dir h = (base +:+ "/deadbeef/lyrics") +:+ "/".
Proof.
  unfold lyrics_dir.
  exists (match env_xdg_cache_home h with
          | Some home_cache => home_cache
          | None => env_home h +:+ "/.cache"
          end).
  now rewrite append_assoc.
Qed.

Lemma append_nonempty_r (s1 s2 : string) : s2 <> "" -> s1 +:+ s2 <> "".
Proof. intros Hne. destruct s1; simpl; [exact Hne|discriminate]. Qed.

(** ** [mkpath] on a tree of directories *)

Lemma mkdir_each_in_place (wanted : list string) (mode : Z) (d : dirs) :
  (forall dir, In dir wanted -> dir ∈ refused d -> dir ∈ in_place d) ->
  mkdir_each mkdir_in wanted mode d
  = (0%Z, Dirs (list_to_set wanted ∪ in_place d) (refused d)).
Proof.
  revert d. induction wanted as [|dir rest IH]; intros d Hok.
  - destruct d. simpl. f_equal. f_equal. set_solver.
  - cbn [mkdir_each]. unfold mkdir_in at 1.
    destruct (decide (dir ∈ in_place d)) as [Hin|Hnin].
    + rewrite bool_decide_eq_true_2 by exact Hin. cbn [negb Pos.eqb EEXIST].
      rewrite IH by (intros; apply Hok; [now right|assumption]).
      f_equal. f_equal. set_solver.
    + rewrite bool_decide_eq_false_2 by exact Hnin.
      rewrite bool_decide_eq_false_2
        by (intros Href; apply Hnin, Hok; [now left|exact Href]).
      rewrite IH; cbn [in_place refused].
      * f_equal. f_equal. set_solver.
      * intros dir' Hin Href. apply elem_of_union. right.
        apply Hok; [now right|exact Href].
Qed.

(** X3: [ensure_lyrics_path_exists] makes the directory that holds the
    cache files.  On a tree where no directory on the way is both missing
    and refused, it leaves in place the cache directory, that is
    [lyrics_dir] without its final '/', and every cache file name is that
    directory, a '/', and a key without '/'. *)
Theorem ensure_lyrics_path_exists_makes (h : host) (d : dirs) :
  (forall dir rest, lyrics_dir h = dir +:+ String "/" rest ->
                    dir ∈ refused d -> dir ∈ in_place d) ->
  exists d' dir,
    ensure_lyrics_path_exists mkdir_in h d = Some d'
    /\ lyrics_dir h = dir +:+ "/"
    /\ dir ∈ in_place d'
    /\ forall artist title,
         exists key, cached_filename h artist title = dir +:+ String "/" key
                     /\ occurs "/" key = false.
Proof.
  intros Hok. destruct (lyrics_dir_slash h) as [base Hdir].
  unfold ensure_lyrics_path_exists.
  rewrite mkpath_scan, mkdir_each_in_place.
  2: { intros dir Hin. apply slash_prefixes_elem in Hin as (_ & rest & Heq).
       now apply (Hok dir rest). }
  eexists _, (base +:+ "/deadbeef/lyrics"). split; [reflexivity|].
  split; [exact Hdir|]. split.
  - cbn [in_place]. apply elem_of_union. left. apply elem_of_list_to_set.
    apply list_elem_of_In, slash_prefixes_elem. split.
    + now apply append_nonempty_r.
    + exists "". exact Hdir.
  - intros artist title.
    exists (replace "/" "_" artist +:+ "-" +:+ replace "/" "_" title). split.
    + unfold cached_filename. rewrite Hdir, !append_assoc. reflexivity.
    + rewrite !occurs_app, !occurs_replace by discriminate. reflexivity.
Qed.

Lemma ensure_lyrics_path_exists_makes_witness :
  exists d' dir,
    ensure_lyrics_path_exists mkdir_in scenario_host (Dirs {[ "/home" ]} ∅) = Some d'
    /\ lyrics_dir scenario_host = dir +:+ "/"
    /\ dir ∈ in_place d'.
Proof.
  destruct (ensure_lyrics_path_exists_makes scenario_host (Dirs {[ "/home" ]} ∅))
    as (d' & dir & Hrun & Hdir & Hin & _).
  - intros dir rest _ Href. now apply not_elem_of_empty in Href.
  - exists d', dir. auto.
Defined.

(** X4: on a tree where no wanted directory is both missing and refused,
    [mkpath] returns 0 and leaves in place every non-empty prefix of the
    name that a '/' follows, beside what was there; directories already in
    place are no error. *)
Theorem mkpath_creates (name : string) (mode : Z) (d : dirs) :
  (forall dir, In dir (slash_prefixes name) -> dir ∈ refused d -> dir ∈ in_place d) ->
  mkpath mkdir_in name mode d
  = Some (0%Z, Dirs (list_to_set (slash_prefixes name) ∪ in_place d) (refused d)).
Proof.
  intros Hok. rewrite mkpath_scan. f_equal.
  now apply mkdir_each_in_place.
Qed.

Lemma mkpath_creates_witness :
  let d := Dirs {[ "/home" ]} ∅ in
  mkpath mkdir_in "/home/u/.cache/" 493 d
  = Some (0%Z, Dirs (list_to_set (slash_prefixes "/home/u/.cache/") ∪ in_place d)
                    (refused d)).
Proof.
  intros d. apply (mkpath_creates "/home/u/.cache/" 493 d).
  intros dir _ Href. now apply not_elem_of_empty in Href.
Defined.

(** X5: [mkpath] is idempotent: once it has returned 0, calling it again
    on the tree it left returns 0 and changes nothing. *)
Theorem mkpath_idempotent (name : string) (mode : Z) (d d' : dirs) :
  mkpath mkdir_in name mode d = Some (0%Z, d') ->
  mkpath mkdir_in name mode d' = Some (0%Z, d').
Proof.
  rewrite !mkpath_scan. generalize (slash_prefixes name) as wanted.
  intros wanted Hrun. injection Hrun as Hrun.
  assert (Hall : forall dir, In dir wanted -> dir ∈ in_place d'
                 /\ in_place d ⊆ in_place d').
  { revert d Hrun. induction wanted as [|dir rest IH]; intros d Hrun dir' [];
      cbn [mkdir_each] in Hrun; unfold mkdir_in at 1 in Hrun.
    - subst dir'. destruct (decide (dir ∈ in_place d)) as [Hin|Hnin].
      + rewrite bool_decide_eq_true_2 in Hrun by exact Hin.
        cbn [negb Pos.eqb EEXIST] in Hrun.
        destruct rest as [|dir2 rest].
        * injection Hrun as <-. split; [exact Hin|reflexivity].
        * destruct (IH d Hrun dir2 (or_introl eq_refl)) as [_ Hsub].
          split; [now apply Hsub|exact Hsub].
      + rewrite bool_decide_eq_false_2 in Hrun by exact Hnin.
        destruct (bool_decide (dir ∈ refused d)); [discriminate|].
        destruct rest as [|dir2 rest].
        * injection Hrun as <-. cbn [in_place]. split; set_solver.
        * destruct (IH _ Hrun dir2 (or_introl eq_refl)) as [_ Hsub].
          cbn [in_place] in Hsub. split; set_solver.
    - destruct (decide (dir ∈ in_place d)) as [Hin|Hnin].
      + rewrite bool_decide_eq_true_2 in Hrun by exact Hin.
        cbn [negb Pos.eqb EEXIST] in Hrun. now apply (IH d Hrun).
      + rewrite bool_decide_eq_false_2 in Hrun by exact Hnin.
        destruct (bool_decide (dir ∈ refused d)); [discriminate|].
        destruct (IH _ Hrun dir' H) as [Hd Hsub]. cbn [in_place] in Hsub.
        split; [exact Hd|set_solver]. }
  rewrite mkdir_each_in_place by (intros dir Hin _; now apply Hall).
  f_equal. f_equal. destruct d' as [inp ref]. f_equal. cbn [in_place].
  apply set_eq. intros x. rewrite elem_of_union, elem_of_list_to_set.
  split; [|tauto]. intros [Hx|Hx]; [|exact Hx].
  apply list_elem_of_In in Hx. now apply Hall.
Qed.

Lemma mkpath_idempotent_witness :
  let d := Dirs {[ "/home" ]} ∅ in
  let d' := Dirs (list_to_set (slash_prefixes "/home/u/.cache/") ∪ in_place d)
                 (refused d) in
  mkpath mkdir_in "/home/u/.cache/" 493 d' = Some (0%Z, d').
Proof.
  intros d d'. apply (mkpath_idempotent "/home/u/.cache/" 493 d d').
  rewrite mkpath_scan, mkdir_each_in_place; [reflexivity|].
  intros dir _ Href. now apply not_elem_of_empty in Href.
Defined.

Lemma mkdir_each_refused (pre post : list string) (bad : string) (mode : Z) (d : dirs) :
  (forall dir, In dir pre -> dir ∈ refused d -> dir ∈ in_place d) ->
  bad ∈ refused d -> bad ∉ in_place d ->
  mkdir_each mkdir_in (pre ++ bad :: post) mode d
  = (Z.pos EACCES, Dirs (list_to_set pre ∪ in_place d) (refused d)).
Proof.
  revert d. induction pre as [|dir pre IH]; intros d Hpre Hbad Hmissing.
  - cbn [app mkdir_each]. unfold mkdir_in.
    rewrite bool_decide_eq_false_2 by exact Hmissing.
    rewrite bool_decide_eq_true_2 by exact Hbad. cbn [negb Pos.eqb EACCES EEXIST].
    destruct d. cbn [in_place refused]. f_equal. f_equal. set_solver.
  - assert (Hne : bad <> dir).
    { intros ->. apply Hmissing, Hpre; [now left|exact Hbad]. }
    cbn [app mkdir_each]. unfold mkdir_in at 1.
    destruct (decide (dir ∈ in_place d)) as [Hin|Hnin].
    + rewrite bool_decide_eq_true_2 by exact Hin. cbn [negb Pos.eqb EEXIST].
      rewrite IH; [|intros; apply Hpre; [now right|assumption]|exact Hbad|exact Hmissing].
      f_equal. f_equal. set_solver.
    + rewrite bool_decide_eq_false_2 by exact Hnin.
      rewrite bool_decide_eq_false_2
        by (intros Href; apply Hnin, Hpre; [now left|exact Href]).
      rewrite IH; cbn [in_place refused].
      * f_equal. f_equal. set_solver.
      * intros dir' Hin Href. apply elem_of_union. right.
        apply Hpre; [now right|exact Href].
      * exact Hbad.
      * set_solver.
Qed.

(** X6: [mkpath] stops at the first directory that is missing and that the
    system refuses to create: it returns the [errno] of that [mkdir], the
    directories before it are in place, and nothing after it is created. *)
Theorem mkpath_stops (name : string) (mode : Z) (d : dirs)
    (pre post : list string) (bad : string) :
  slash_prefixes name = pre ++ bad :: post ->
  (forall dir, In dir pre -> dir ∈ refused d -> dir ∈ in_place d) ->
  bad ∈ refused d -> bad ∉ in_place d ->
  mkpath mkdir_in name mode d
  = Some (Z.pos EACCES, Dirs (list_to_set pre ∪ in_place d) (refused d)).
Proof.
  intros Hsplit Hpre Hbad Hmissing. rewrite mkpath_scan, Hsplit.
  f_equal. now apply mkdir_each_refused.
Qed.

Lemma mkpath_stops_witness :
  let d := Dirs ∅ {[ "/home/u" ]} in
  mkpath mkdir_in "/home/u/.cache/" 493 d
  = Some (Z.pos EACCES, Dirs (list_to_set ["/home"] ∪ in_place d) (refused d)).
Proof.
  intros d.
  apply (mkpath_stops "/home/u/.cache/" 493 d ["/home"] ["/home/u/.cache"] "/home/u").
  - reflexivity.
  - intros dir [<-|[]] Href. exfalso. revert Href. by_evaluation.
  - by_evaluation.
  - by_evaluation.
Defined.

(** ** [is_playing] *)

Lemma ref_count_unref_ref (it x : track) (held : gmap track Z) :
  ref_count x (pl_item_unref it (pl_item_ref it held)) = ref_count x held.
Proof.
  unfold pl_item_unref, pl_item_ref, ref_count.
  destruct (decide (it = x)) as [->|Hne].
  - rewrite !lookup_insert_eq; simpl. lia.
  - now rewrite !lookup_insert_ne by exact Hne.
Qed.

(** X7: [is_playing] is true exactly when a track is playing and it is the
    one asked about; whether or not something plays, the code holds as many
    references on every item afterwards as before. *)
Theorem is_playing_iff (playing : option track) (it : track) (held : gmap track Z) :
  (fst (is_playing playing it held) = true <-> playing = Some it)
  /\ forall x, ref_count x (snd (is_playing playing it held)) = ref_count x held.
Proof.
  destruct playing as [pl_track|]; unfold is_playing; simpl.
  - split; [|intros x; apply ref_count_unref_ref].
    rewrite Nat.eqb_eq. split; congruence.
  - split; [split; discriminate|reflexivity].
Qed.

(** ** [remove_from_cache_action] *)

Lemma purged_world_nil (env : action_env) (w : world) : purged_world env [] w = w.
Proof. destruct w. unfold purged_world; simpl. now rewrite app_nil_r. Qed.

Lemma purged_world_app (env : action_env) (t1 t2 : list string) (w : world) :
  purged_world env t2 (purged_world env t1 w) = purged_world env (t1 ++ t2) w.
Proof.
  unfold purged_world, purged; simpl.
  now rewrite foldl_app, map_app, app_assoc.
Qed.

Lemma purge_targets_cons (h : host) (env : action_env) (it : track)
    (items : list track) :
  purge_targets h env (it :: items)
  = purge_targets h env [it] ++ purge_targets h env items.
Proof.
  unfold purge_targets; simpl.
  destruct (pl_is_selected env it); [|reflexivity].
  destruct (pl_find_meta h it "artist"); [|reflexivity].
  destruct (pl_find_meta h it "title"); reflexivity.
Qed.

Lemma purge_item_run (h : host) (env : action_env) (it : track) (s : session) :
  purge_item h env it s
  = Some (tt, Session (purged_world env (purge_targets h env [it]) (s_world s))
                      (s_items s) (s_playlists s)).
Proof.
  unfold purge_item, purge_targets; simpl.
  destruct (pl_is_selected env it);
    [|unfold ret_s; rewrite purged_world_nil; now destruct s].
  destruct (pl_find_meta h it "artist") as [a|];
    [destruct (pl_find_meta h it "title") as [t|]|].
  - unfold bind_s, on_world. rewrite is_cached_some.
    set (path := cached_filename h a t).
    unfold purged_world, purged, delete_unless; simpl.
    destruct (bool_decide (is_Some (files (s_world s) !! path))) eqn:Hcached.
    + unfold bind, string_of_cstr, ret, remove_file; simpl. fold path.
      destruct (bool_decide (path ∈ undeletable env)); reflexivity.
    + unfold ret_s; simpl. apply bool_decide_eq_false in Hcached.
      rewrite delete_id by (now apply eq_None_not_Some).
      destruct (bool_decide (path ∈ undeletable env)); reflexivity.
  - unfold bind_s, on_world; simpl. unfold ret_s.
    rewrite purged_world_nil. now destruct s.
  - unfold bind_s, on_world; simpl. unfold ret_s.
    rewrite purged_world_nil. now destruct s.
Qed.

Lemma ref_count_ref (it x : track) (held : gmap track Z) :
  ref_count x (pl_item_ref it held)
  = (ref_count x held + if decide (it = x) then 1 else 0)%Z.
Proof.
  unfold pl_item_ref, ref_count. destruct (decide (it = x)) as [->|Hne].
  - now rewrite lookup_insert_eq.
  - rewrite lookup_insert_ne by exact Hne. lia.
Qed.

Lemma ref_count_unref (it x : track) (held : gmap track Z) :
  ref_count x (pl_item_unref it held)
  = (ref_count x held - if decide (it = x) then 1 else 0)%Z.
Proof.
  unfold pl_item_unref, ref_count. destruct (decide (it = x)) as [->|Hne].
  - now rewrite lookup_insert_eq.
  - rewrite lookup_insert_ne by exact Hne. lia.
Qed.

(** The loop from [current]: the targets of the items it visits are
    purged, and the reference held on [current] is given back. *)
Lemma purge_from_run (h : host) (env : action_env) (following : list track)
    (current : track) (s : session) :
  exists held,
    purge_from h env current following s
    = Some (tt, Session (purged_world env (purge_targets h env (current :: following))
                                      (s_world s))
                        held (s_playlists s))
    /\ forall x, ref_count x held
                 = (ref_count x (s_items s) - if decide (current = x) then 1 else 0)%Z.
Proof.
  revert current s. induction following as [|next following IH]; intros current s.
  - eexists. cbn [purge_from]. unfold bind_s at 1. rewrite purge_item_run.
    unfold on_items; cbn [s_world s_items s_playlists].
    split; [reflexivity|]. intros x. apply ref_count_unref.
  - cbn [purge_from]. unfold bind_s at 1. rewrite purge_item_run.
    unfold bind_s at 1. unfold on_items at 1. cbn [s_world s_items s_playlists].
    unfold bind_s at 1. unfold on_items at 1. cbn [s_world s_items s_playlists].
    destruct (IH next (Session (purged_world env (purge_targets h env [current]) (s_world s))
                               (pl_item_unref current (pl_item_ref next (s_items s)))
                               (s_playlists s)))
      as (held & -> & Hheld).
    cbn [s_world s_items s_playlists] in *.
    exists held. split.
    + rewrite purged_world_app, <- purge_targets_cons. reflexivity.
    + intros x. rewrite Hheld, ref_count_unref, ref_count_ref.
      destruct (decide (next = x)); lia.
Qed.

Lemma purged_lookup (env : action_env) (targets : list string)
    (fs : gmap string string) (path : string) :
  purged env targets fs !! path
  = if decide (path ∈ targets /\ path ∉ undeletable env) then None
    else fs !! path.
Proof.
  unfold purged. revert fs. induction targets as [|p targets IH]; intros fs.
  - cbn [foldl].
    destruct (decide _) as [[Hin _]|]; [now apply elem_of_nil in Hin|reflexivity].
  - cbn [foldl]. rewrite IH. unfold delete_unless.
    destruct (decide (path ∈ targets /\ path ∉ undeletable env)) as [[Hin Hdel]|Hno].
    + rewrite decide_True; [reflexivity|].
      split; [now apply elem_of_cons; right|exact Hdel].
    + destruct (decide (p = path)) as [->|Hne].
      * destruct (decide (path ∈ undeletable env)) as [Hkept|Hdel].
        -- rewrite bool_decide_eq_true_2 by exact Hkept.
           rewrite decide_False; [reflexivity|]. tauto.
        -- rewrite bool_decide_eq_false_2 by exact Hdel.
           rewrite lookup_delete_eq, decide_True; [reflexivity|].
           split; [now apply elem_of_cons; left|exact Hdel].
      * rewrite decide_False.
        -- destruct (bool_decide (p ∈ undeletable env)); [reflexivity|].
           now rewrite lookup_delete_ne.
        -- intros [Hin Hdel]. apply elem_of_cons in Hin as [?|?];
             [congruence|tauto].
Qed.

(** The action as a whole. *)
Lemma remove_from_cache_action_run (h : host) (env : action_env)
    (ctx : ddb_action_context_t) (s : session) :
  exists s',
    remove_from_cache_action h env ctx s = Some (0%Z, s')
    /\ (forall x, ref_count x (s_items s') = ref_count x (s_items s))
    /\ s_playlists s' = s_playlists s
    /\ s_world s'
       = if is_selection ctx then
           after [EvUnlock]
             (purged_world env (purge_targets h env (default [] (plt_curr env)))
                (after [EvLock] (s_world s)))
         else s_world s.
Proof.
  unfold remove_from_cache_action. destruct (is_selection ctx).
  2: { exists s. unfold bind_s, ret_s. auto. }
  unfold bind_s at 1. unfold bind_s at 1. unfold on_world at 1, pl_lock, emit.
  rewrite log_after. cbn [s_items s_playlists].
  destruct (plt_curr env) as [[|first following]|]; cbn [default].
  - eexists. unfold bind_s, on_playlists, ret_s, on_world, pl_unlock, emit;
      cbn [s_world s_items s_playlists].
    split; [reflexivity|]. cbn [s_world s_items s_playlists].
    split; [reflexivity|]. split; [lia|].
    unfold purge_targets; simpl. now rewrite purged_world_nil.
  - unfold bind_s at 1. unfold bind_s at 1. unfold on_playlists at 1.
    cbn [s_world s_items s_playlists].
    unfold bind_s at 1. unfold bind_s at 1. unfold on_items at 1.
    cbn [s_world s_items s_playlists].
    destruct (purge_from_run h env following first
                (Session (after [EvLock] (s_world s))
                         (pl_item_ref first (s_items s)) (1 + s_playlists s)))
      as (held & -> & Hheld).
    cbn [s_world s_items s_playlists] in *.
    eexists. unfold on_playlists, on_world, pl_unlock, emit;
      cbn [s_world s_items s_playlists].
    split; [reflexivity|]. cbn [s_world s_items s_playlists].
    split; [|split; [lia|reflexivity]].
    intros x. rewrite Hheld, ref_count_ref. destruct (decide (first = x)); lia.
  - eexists. unfold bind_s, ret_s, on_world, pl_unlock, emit;
      cbn [s_world s_items s_playlists].
    split; [reflexivity|]. cbn [s_world s_items s_playlists].
    split; [reflexivity|]. split; [reflexivity|].
    unfold purge_targets; simpl. now rewrite purged_world_nil.
Qed.

Lemma elem_of_purge_targets (h : host) (env : action_env) (items : list track)
    (path : string) :
  path ∈ purge_targets h env items <->
  exists it a t,
    it ∈ items /\ pl_is_selected env it = true
    /\ pl_find_meta h it "artist" = Some a /\ pl_find_meta h it "title" = Some t
    /\ path = cached_filename h a t.
Proof.
  unfold purge_targets. rewrite list_elem_of_omap. split.
  - intros (it & Hin & Hsome). exists it.
    destruct (pl_is_selected env it); [|discriminate].
    destruct (pl_find_meta h it "artist") as [a|]; [|discriminate].
    destruct (pl_find_meta h it "title") as [t|]; [|discriminate].
    injection Hsome as <-. exists a, t. auto.
  - intros (it & a & t & Hin & Hsel & Ha & Ht & ->).
    exists it. split; [exact Hin|]. now rewrite Hsel, Ha, Ht.
Qed.



(** X9: after the action has run on the selection, no cache file is left
    for a selected item of the current playlist that has an artist and a
    title, unless the system refused to delete it: [is_cached] then answers
    false for that artist and title. *)
Theorem remove_from_cache_action_purges (h : host) (env : action_env)
    (s : session) (items : list track) (it : track) (a t : string) :
  plt_curr env = Some items ->
  it ∈ items ->
  pl_is_selected env it = true ->
  pl_find_meta h it "artist" = Some a ->
  pl_find_meta h it "title" = Some t ->
  cached_filename h a t ∉ undeletable env ->
  exists s',
    remove_from_cache_action h env DDB_ACTION_CTX_SELECTION s = Some (0%Z, s')
    /\ files (s_world s') !! cached_filename h a t = None
    /\ value_of (is_cached h (Some a) (Some t) (s_world s')) = Some false.
Proof.
  intros Hplt Hin Hsel Ha Ht Hdel.
  destruct (remove_from_cache_action_run h env DDB_ACTION_CTX_SELECTION s)
    as (s' & Hrun & _ & _ & Hworld).
  exists s'. split; [exact Hrun|].
  assert (Hgone : files (s_world s') !! cached_filename h a t = None).
  { rewrite Hworld, Hplt. cbn [is_selection default after purged_world files].
    rewrite purged_lookup, decide_True; [reflexivity|].
    split; [|exact Hdel]. apply elem_of_purge_targets. exists it, a, t. auto. }
  split; [exact Hgone|]. rewrite is_cached_some; simpl. f_equal.
  apply bool_decide_eq_false. rewrite Hgone. now intros [? [=]].
Qed.

Lemma remove_from_cache_action_purges_witness :
  let path := "/home/u/.cache/deadbeef/lyrics/AC_DC-T.N.T" in
  exists s',
    remove_from_cache_action scenario_host example_env DDB_ACTION_CTX_SELECTION
      (quiet_session {[ path := "Hello" ]})
    = Some (0%Z, s')
    /\ files (s_world s') !! path = None
    /\ value_of (is_cached scenario_host (Some "AC/DC") (Some "T.N.T") (s_world s'))
       = Some false.
Proof.
  intros path.
  apply (remove_from_cache_action_purges scenario_host example_env
           (quiet_session {[ path := "Hello" ]}) [1; 2; 3] 1 "AC/DC" "T.N.T");
    try reflexivity.
  - apply elem_of_cons. now left.
  - apply not_elem_of_empty.
Defined.

(** X10: the action leaves alone every file that is the cache file of no
    selected item of the current playlist, in whatever context it runs:
    entries of unselected tracks, and anything else in the directory, are
    kept with their content. *)
Theorem remove_from_cache_action_frame (h : host) (env : action_env)
    (ctx : ddb_action_context_t) (s : session) (path : string) :
  (forall it a t,
      it ∈ default [] (plt_curr env) -> pl_is_selected env it = true ->
      pl_find_meta h it "artist" = Some a -> pl_find_meta h it "title" = Some t ->
      cached_filename h a t <> path) ->
  exists s',
    remove_from_cache_action h env ctx s = Some (0%Z, s')
    /\ files (s_world s') !! path = files (s_world s) !! path.
Proof.
  intros Hother.
  destruct (remove_from_cache_action_run h env ctx s)
    as (s' & Hrun & _ & _ & Hworld).
  exists s'. split; [exact Hrun|]. rewrite Hworld.
  destruct (is_selection ctx); [|reflexivity].
  cbn [after purged_world files]. rewrite purged_lookup, decide_False;
    [reflexivity|].
  intros [Hin _]. apply elem_of_purge_targets in Hin
    as (it & a & t & Hin & Hsel & Ha & Ht & ->).
  now apply (Hother it a t).
Qed.

Lemma remove_from_cache_action_frame_witness :
  exists s',
    remove_from_cache_action scenario_host example_env DDB_ACTION_CTX_SELECTION
      (quiet_session {[ "/home/u/.cache/deadbeef/lyrics/AC_DC-T.N.T" := "Hello";
                        "/home/u/.cache/deadbeef/lyrics/Queen-Innuendo" := "la" ]})
    = Some (0%Z, s')
    /\ files (s_world s') !! "/home/u/.cache/deadbeef/lyrics/Queen-Innuendo"
       = Some "la".
Proof.
  destruct (remove_from_cache_action_frame scenario_host example_env
              DDB_ACTION_CTX_SELECTION
              (quiet_session {[ "/home/u/.cache/deadbeef/lyrics/AC_DC-T.N.T" := "Hello";
                                "/home/u/.cache/deadbeef/lyrics/Queen-Innuendo" := "la" ]})
              "/home/u/.cache/deadbeef/lyrics/Queen-Innuendo")
    as (s' & Hrun & Hkept).
  - intros it a t Hin _ Ha Ht.
    cbn [example_env plt_curr default] in Hin.
    repeat (apply elem_of_cons in Hin as [->|Hin]);
      [| |discriminate Ht|now apply elem_of_nil in Hin];
      cbn in Ha, Ht; injection Ha as <-; injection Ht as <-;
      vm_compute; discriminate.
  - exists s'. split; [exact Hrun|]. rewrite Hkept. reflexivity.
Defined.

(** ** The script provider, whatever the world *)

Lemma ui_pushes_app (evs1 evs2 : list event) :
  ui_pushes (evs1 ++ evs2) = ui_pushes evs1 ++ ui_pushes evs2.
Proof. apply omap_app. Qed.

(** The provider's answer and the events it causes do not depend on the
    world it runs in; none of the events is a push or touches a file. *)
Lemma script_pure_quiet (h : host) (it : track) :
  exists res evs,
    (forall w, get_lyrics_from_script h it w = Ret res (after evs w))
    /\ ui_pushes evs = []
    /\ Forall (fun e => is_fs_event e = false) evs.
Proof.
  destruct (string_empty (script_of h)) eqn:Hscript.
  { exists None, []. split; [|split; [reflexivity|constructor]].
    intros w. rewrite get_lyrics_from_script_run; cbv zeta.
    now rewrite Hscript, after_nil. }
  destruct (tf_compile_host h (script_of h)) as [code|] eqn:Hcompile;
    [destruct (tf_expand h code it) as [text|] eqn:Hexpand;
     [destruct (run_command h (command_of text)) as [what|out status] eqn:Hspawn;
      [|destruct (string_empty out || negb (status =? 0)%Z) eqn:Hbad;
        [|destruct (negb (utf8_validate h out)) eqn:Hvalid]]|]|];
    (eexists _, _; split;
     [intros w; rewrite get_lyrics_from_script_run; cbv zeta;
      rewrite Hscript, Hcompile, ?Hexpand, ?Hspawn, ?Hbad, ?Hvalid; reflexivity
     |split; [reflexivity|repeat constructor]]).
Qed.

(** X12: when the template compiles, the compiled code is evaluated once
    and freed once, in that order and before any command is spawned, on
    every path; when it does not compile, or is empty, nothing is evaluated,
    freed or spawned.  A template that fails to compile or to evaluate gives
    absent, with the diagnostic of an invalid command. *)
Theorem script_template_discipline (h : host) (it : track) (w : world) :
  exists res evs,
    get_lyrics_from_script h it w = Ret res (after evs w)
    /\ match (if string_empty (script_of h) then None
              else tf_compile_host h (script_of h)) with
       | Some code =>
           exists tail,
             evs = EvTfCompile (script_of h) :: EvTfEval code it
                   :: EvTfFree code :: tail
             /\ Forall (fun e => match e with
                                 | EvSpawn _ | EvCerr _ => True
                                 | _ => False
                                 end) tail
             /\ (tf_expand h code it = None ->
                 res = None /\ tail = [EvCerr msg_invalid_command])
       | None =>
           res = None
           /\ Forall (fun e => match e with
                               | EvTfCompile _ | EvCerr _ => True
                               | _ => False
                               end) evs
           /\ (string_empty (script_of h) = false ->
               evs = [EvTfCompile (script_of h); EvCerr msg_invalid_command])
       end.
Proof.
  rewrite get_lyrics_from_script_run; cbv zeta.
  destruct (string_empty (script_of h)).
  { exists None, []. rewrite after_nil. split; [reflexivity|].
    split; [reflexivity|]. split; [constructor|discriminate]. }
  destruct (tf_compile_host h (script_of h)) as [code|].
  2: { eexists _, _. split; [reflexivity|]. split; [reflexivity|].
       split; [repeat constructor|reflexivity]. }
  destruct (tf_expand h code it) as [text|].
  2: { eexists _, _. split; [reflexivity|]. eexists. split; [reflexivity|].
       split; [repeat constructor|auto]. }
  destruct (run_command h (command_of text)) as [what|out status];
    [|destruct (string_empty out || negb (status =? 0)%Z);
      [|destruct (negb (utf8_validate h out))]];
    (eexists _, _; split; [reflexivity|]; eexists; split; [reflexivity|];
     split; [repeat constructor|discriminate]).
Qed.

(** ** Every path of [update_lyrics] *)

Lemma try_providers_run (h : host) (it : track) (a t : string)
    (res : option string) (evs : list event) (w : world) :
  (forall w0, get_lyrics_from_script h it w0 = Ret res (after evs w0)) ->
  try_providers h (providers h) it (Some a) (Some t) w
  = match res with
    | Some text =>
        match save_cached_lyrics h a t text (after (evs ++ [EvSetLyrics it text]) w) with
        | Ret _ w1 => Ret true w1
        | Undefined => Undefined
        end
    | None => Ret false (after evs w)
    end.
Proof.
  intros Hrun. unfold providers, try_providers, bind at 1. rewrite Hrun.
  destruct res as [text|]; [|reflexivity].
  unfold bind at 1. unfold set_lyrics, emit. rewrite log_after, after_after.
  reflexivity.
Qed.

Lemma update_lyrics_keyed (h : host) (it : track) (a t : string)
    (res : option string) (evs : list event) (w : world) :
  first_present h it lyrics_tags = None ->
  pl_find_meta h it "artist" = Some a ->
  pl_find_meta h it "title" = Some t ->
  (forall w0, get_lyrics_from_script h it w0 = Ret res (after evs w0)) ->
  let path := cached_filename h a t in
  update_lyrics h it w
  = match files w !! path with
    | Some content =>
        if bool_decide (path ∈ unreadable w)
        then after_miss h it a t "Failed to open file: Permission denied" res evs w
        else Ret tt (after (probe_events path ++ [EvSetLyrics it content]) w)
    | None =>
        after_miss h it a t "Failed to open file: No such file or directory" res evs w
    end.
Proof.
  intros Hmeta Hartist Htitle Hrun path.
  assert (Hmiss : forall what,
    (let* returned :=
       try_providers h (providers h) it (Some a) (Some t) in
     if returned then ret tt else set_lyrics it (gettext h "Lyrics not found"))
      (after (probe_events path
              ++ [EvDebug what; EvSetLyrics it (gettext h "Loading...")]) w)
    = after_miss h it a t what res evs w).
  { intros what. unfold bind at 1. rewrite (try_providers_run h it a t res evs) by exact Hrun.
    unfold after_miss. fold path. destruct res as [text|].
    - rewrite after_after, <- !app_assoc.
      destruct (save_cached_lyrics _ _ _ _ _); reflexivity.
    - unfold set_lyrics, emit. rewrite log_after, !after_after, <- !app_assoc.
      reflexivity. }
  unfold update_lyrics, bind at 1.
  rewrite get_lyrics_from_metadata_run, Hmeta, Hartist, Htitle.
  unfold bind at 1. unfold pl_lock, emit. rewrite log_after, after_after.
  unfold bind at 1. unfold pl_unlock, emit. rewrite log_after, after_after.
  cbn [is_null negb andb].
  unfold bind at 1. rewrite load_cached_lyrics_some. cbv zeta.
  fold path. cbn [files unreadable after].
  destruct (files w !! path) as [content|];
    [destruct (bool_decide (path ∈ unreadable w))|].
  - rewrite !log_after, !after_after. unfold bind at 1.
    unfold set_lyrics at 1, emit. rewrite log_after, after_after.
    rewrite <- (Hmiss "Failed to open file: Permission denied").
    unfold probe_events. now rewrite <- !app_assoc.
  - rewrite !log_after, !after_after. unfold set_lyrics, emit.
    rewrite log_after, after_after. unfold probe_events.
    now rewrite <- !app_assoc.
  - rewrite !log_after, !after_after. unfold bind at 1.
    unfold set_lyrics at 1, emit. rewrite log_after, after_after.
    rewrite <- (Hmiss "Failed to open file: No such file or directory").
    unfold probe_events. now rewrite <- !app_assoc.
Qed.

Lemma update_lyrics_no_key_run (h : host) (it : track) (w : world) :
  first_present h it lyrics_tags = None ->
  pl_find_meta h it "artist" = None \/ pl_find_meta h it "title" = None ->
  update_lyrics h it w
  = Ret tt (after [EvLock; EvUnlock; EvLock; EvUnlock;
                   EvSetLyrics it (gettext h "Lyrics not found")] w).
Proof.
  intros Hmeta Hkey. unfold update_lyrics, bind at 1.
  rewrite get_lyrics_from_metadata_run, Hmeta.
  destruct Hkey as [-> | ->]; [|destruct (pl_find_meta h it "artist")]; run_done.
Qed.

(** X13: a track without lyrics tags that lacks its artist or its title
    gets "Lyrics not found" and nothing else: one push, no file touched, no
    template compiled, no command spawned, the world otherwise as it was. *)
Theorem update_lyrics_no_key (h : host) (it : track) (w : world) :
  first_present h it lyrics_tags = None ->
  pl_find_meta h it "artist" = None \/ pl_find_meta h it "title" = None ->
  update_lyrics h it w
  = Ret tt (after [EvLock; EvUnlock; EvLock; EvUnlock;
                   EvSetLyrics it (gettext h "Lyrics not found")] w).
Proof.
  intros Hmeta Hkey. unfold update_lyrics, bind at 1.
  rewrite get_lyrics_from_metadata_run, Hmeta.
  destruct Hkey as [Hartist | Htitle].
  - rewrite Hartist. run_done.
  - rewrite Htitle. destruct (pl_find_meta h it "artist"); run_done.
Qed.

Lemma update_lyrics_no_key_witness :
  update_lyrics scenario_host 3 fresh_world
  = Ret tt (after [EvLock; EvUnlock; EvLock; EvUnlock;
                   EvSetLyrics 3 (gettext scenario_host "Lyrics not found")]
                  fresh_world).
Proof.
  apply (update_lyrics_no_key scenario_host 3 fresh_world);
    [reflexivity|right; reflexivity].
Defined.

Lemma update_lyrics_cache_hit_run (h : host) (it : track) (a t content : string)
    (w : world) :
  first_present h it lyrics_tags = None ->
  pl_find_meta h it "artist" = Some a ->
  pl_find_meta h it "title" = Some t ->
  files w !! cached_filename h a t = Some content ->
  cached_filename h a t ∉ unreadable w ->
  update_lyrics h it w
  = Ret tt (after (probe_events (cached_filename h a t) ++ [EvSetLyrics it content]) w).
Proof.
  intros Hmeta Ha Ht Hfile Hread.
  destruct (script_pure_quiet h it) as (res & evs & Hrun & _).
  rewrite (update_lyrics_keyed h it a t res evs w Hmeta Ha Ht Hrun). cbv zeta.
  now rewrite Hfile, bool_decide_eq_false_2 by exact Hread.
Qed.

(** X14: when the track has no lyrics tag and the cache holds a readable
    entry for its artist and title, [update_lyrics] pushes the content of
    that entry as it is (it is not checked for UTF-8) and returns: no
    "Loading..." push, no provider run, no write; the files are unchanged. *)
Theorem update_lyrics_cache_hit (h : host) (it : track) (a t content : string)
    (w : world) :
  first_present h it lyrics_tags = None ->
  pl_find_meta h it "artist" = Some a ->
  pl_find_meta h it "title" = Some t ->
  files w !! cached_filename h a t = Some content ->
  cached_filename h a t ∉ unreadable w ->
  update_lyrics h it w
  = Ret tt (after (probe_events (cached_filename h a t) ++ [EvSetLyrics it content]) w).
Proof.
  intros Hmeta Ha Ht Hfile Hread.
  destruct (script_pure_quiet h it) as (res & evs & Hrun & _).
  rewrite (update_lyrics_keyed h it a t res evs w Hmeta Ha Ht Hrun). cbv zeta.
  rewrite Hfile. rewrite bool_decide_eq_false_2 by exact Hread.
  reflexivity.
Qed.

Lemma update_lyrics_cache_hit_witness :
  let path := "/home/u/.cache/deadbeef/lyrics/AC_DC-T.N.T" in
  let w := quiet_world {[ path := String (ascii_of_nat 255) "" ]} ∅ None in
  update_lyrics scenario_host 1 w
  = Ret tt (after (probe_events (cached_filename scenario_host "AC/DC" "T.N.T")
                   ++ [EvSetLyrics 1 (String (ascii_of_nat 255) "")]) w).
Proof.
  intros path w.
  apply (update_lyrics_cache_hit scenario_host 1 "AC/DC" "T.N.T"
           (String (ascii_of_nat 255) "") w);
    [reflexivity|reflexivity|reflexivity|reflexivity|by_evaluation].
Defined.

Lemma load_miss_cases (h : host) (a t : string) (w : world) :
  value_of (load_cached_lyrics h (Some a) (Some t) w) = Some None ->
  files w !! cached_filename h a t = None
  \/ (is_Some (files w !! cached_filename h a t)
      /\ bool_decide (cached_filename h a t ∈ unreadable w) = true).
Proof.
  rewrite load_cached_lyrics_some. cbv zeta.
  destruct (files w !! cached_filename h a t) as [content|]; [|now left].
  destruct (bool_decide _); [right; eauto|discriminate].
Qed.

(** X15: when the track has no lyrics tag, the cache gives nothing and the
    provider gives nothing, [update_lyrics] pushes "Loading..." and then
    "Lyrics not found", and leaves the cache untouched: no file is opened
    for writing or written, and the files are what they were. *)
Theorem update_lyrics_provider_miss (h : host) (it : track) (a t : string)
    (w : world) :
  first_present h it lyrics_tags = None ->
  pl_find_meta h it "artist" = Some a ->
  pl_find_meta h it "title" = Some t ->
  value_of (load_cached_lyrics h (Some a) (Some t) w) = Some None ->
  (forall w0, value_of (get_lyrics_from_script h it w0) = Some None) ->
  exists evs,
    update_lyrics h it w = Ret tt (after evs w)
    /\ ui_pushes evs = [(it, gettext h "Loading..."); (it, gettext h "Lyrics not found")]
    /\ Forall (fun e => is_cache_write e = false) evs
    /\ files (after evs w) = files w.
Proof.
  intros Hmeta Ha Ht Hmiss Hnone.
  destruct (script_pure_quiet h it) as (res & evs & Hrun & Hui & Hfs).
  specialize (Hnone w). rewrite Hrun in Hnone. injection Hnone as ->.
  rewrite (update_lyrics_keyed h it a t None evs w Hmeta Ha Ht Hrun). cbv zeta.
  assert (Hquiet : Forall (fun e => is_cache_write e = false) evs)
    by (eapply Forall_impl; [exact Hfs|apply fs_event_cache_write]).
  destruct (load_miss_cases h a t w Hmiss) as [->|[[content ->] ->]];
    unfold after_miss;
    (eexists; split; [reflexivity|]; split;
     [rewrite !ui_pushes_app, Hui; reflexivity|split; [|reflexivity]]);
    repeat (apply Forall_app; split); try exact Hquiet; repeat constructor.
Qed.

Lemma update_lyrics_provider_miss_witness :
  let h := example_host None echo_hello in
  exists evs,
    update_lyrics h 1 fresh_world = Ret tt (after evs fresh_world)
    /\ ui_pushes evs = [(1, "Loading..."); (1, "Lyrics not found")].
Proof.
  intros h.
  destruct (update_lyrics_provider_miss h 1 "AC/DC" "T.N.T" fresh_world)
    as (evs & Hrun & Hui & _);
    [reflexivity|reflexivity|reflexivity|vm_compute; reflexivity
    |intros w0; vm_compute; reflexivity|].
  exists evs. split; [exact Hrun|exact Hui].
Defined.

(** Every run of [update_lyrics], in one statement. *)
Lemma update_lyrics_cases (h : host) (it : track) (w : world) :
  exists w' evs x,
    update_lyrics h it w = Ret tt w'
    /\ trace w' = trace w ++ evs
    /\ (ui_pushes evs = [(it, x)]
        \/ ui_pushes evs = [(it, gettext h "Loading..."); (it, x)])
    /\ unwritable w' = unwritable w
    /\ unreadable w' = unreadable w
    /\ room w' = room w
    /\ (files w' = files w
        \/ exists a t text,
             pl_find_meta h it "artist" = Some a
             /\ pl_find_meta h it "title" = Some t
             /\ files w' = <[cached_filename h a t := text]> (files w)).
Proof.
  destruct (first_present h it lyrics_tags) as [text|] eqn:Hmeta.
  { exists (after [EvLock; EvUnlock; EvSetLyrics it text] w),
      [EvLock; EvUnlock; EvSetLyrics it text], text. split.
    - unfold update_lyrics, bind at 1.
      rewrite get_lyrics_from_metadata_run, Hmeta. run_done.
    - cbn [after trace files unwritable unreadable room].
      split; [reflexivity|]. split; [now left|auto]. }
  destruct (pl_find_meta h it "artist") as [a|] eqn:Ha.
  2: { eexists _, _, _. split; [apply update_lyrics_no_key_run; auto|].
       cbn [after trace files unwritable unreadable room].
       split; [reflexivity|]. split; [now left|auto]. }
  destruct (pl_find_meta h it "title") as [t|] eqn:Ht.
  2: { eexists _, _, _. split; [apply update_lyrics_no_key_run; auto|].
       cbn [after trace files unwritable unreadable room].
       split; [reflexivity|]. split; [now left|auto]. }
  destruct (script_pure_quiet h it) as (res & evs & Hrun & Hui & _).
  rewrite (update_lyrics_keyed h it a t res evs w Hmeta Ha Ht Hrun). cbv zeta.
  set (path := cached_filename h a t).
  assert (Hafter_miss : forall what,
    exists w' evs' x,
      after_miss h it a t what res evs w = Ret tt w'
      /\ trace w' = trace w ++ evs'
      /\ (ui_pushes evs' = [(it, x)]
          \/ ui_pushes evs' = [(it, gettext h "Loading..."); (it, x)])
      /\ unwritable w' = unwritable w
      /\ unreadable w' = unreadable w
      /\ room w' = room w
      /\ (files w' = files w
          \/ exists a' t' text,
               Some a = Some a' /\ Some t = Some t'
               /\ files w' = <[cached_filename h a' t' := text]> (files w))).
  { intros what. unfold after_miss. fold path. destruct res as [text|].
    - destruct (decide (path ∈ unwritable w)) as [Hclosed|Hopen].
      + rewrite save_cached_lyrics_closed by exact Hclosed. fold path.
        rewrite !log_after, !after_after.
        eexists _, _, text. split; [reflexivity|].
        cbn [after trace files unwritable unreadable room].
        split; [reflexivity|]. split; [|auto].
        right. rewrite !ui_pushes_app, Hui. reflexivity.
      + rewrite save_cached_lyrics_open by exact Hopen. fold path.
        cbn [after trace files unwritable unreadable room].
        eexists _, _, text. split; [reflexivity|].
        cbn [trace files unwritable unreadable room].
        split; [now rewrite <- app_assoc|]. split.
        * right. rewrite !ui_pushes_app, Hui. reflexivity.
        * do 3 (split; [reflexivity|]). right.
          exists a, t, (stored_bytes (room w) text). auto.
    - eexists _, _, _. split; [reflexivity|].
      cbn [after trace files unwritable unreadable room].
      split; [reflexivity|]. split; [|auto].
      right. rewrite !ui_pushes_app, Hui. reflexivity. }
  destruct (files w !! path) as [content|];
    [destruct (bool_decide (path ∈ unreadable w))|].
  - apply Hafter_miss.
  - eexists _, _, content. split; [reflexivity|].
    cbn [after trace files unwritable unreadable room].
    split; [reflexivity|]. split; [now left|auto].
  - apply Hafter_miss.
Qed.

(** X16: [update_lyrics] always returns, whatever the tags, the cache and
    the provider do (no null pointer reaches a [std::string]).  All its
    pushes are for the track it was given, and they are either one text, or
    "Loading..." followed by one text.  It leaves the faults of the file
    system as they are. *)
Theorem update_lyrics_pushes (h : host) (it : track) (w : world) :
  exists w' evs x,
    update_lyrics h it w = Ret tt w'
    /\ trace w' = trace w ++ evs
    /\ (ui_pushes evs = [(it, x)]
        \/ ui_pushes evs = [(it, gettext h "Loading..."); (it, x)])
    /\ unwritable w' = unwritable w
    /\ unreadable w' = unreadable w
    /\ room w' = room w.
Proof.
  destruct (update_lyrics_cases h it w)
    as (w' & evs & x & Hrun & Htrace & Hui & Hw & Hr & Hroom & _).
  exists w', evs, x. auto 10.
Qed.

(** X17: [update_lyrics] changes no file but the cache file of the
    track's own artist and title: every other path holds afterwards what it
    held before, and a track without artist or title changes no file. *)
Theorem update_lyrics_frame (h : host) (it : track) (w : world) (path : string) :
  (forall a t, pl_find_meta h it "artist" = Some a ->
               pl_find_meta h it "title" = Some t ->
               cached_filename h a t <> path) ->
  exists w',
    update_lyrics h it w = Ret tt w'
    /\ files w' !! path = files w !! path.
Proof.
  intros Hother.
  destruct (update_lyrics_cases h it w)
    as (w' & evs & x & Hrun & _ & _ & _ & _ & _ & Hfiles).
  exists w'. split; [exact Hrun|].
  destruct Hfiles as [->|(a & t & text & Ha & Ht & ->)]; [reflexivity|].
  apply lookup_insert_ne. now apply Hother.
Qed.

Lemma update_lyrics_frame_witness :
  let other := "/home/u/.cache/deadbeef/lyrics/Queen-Innuendo" in
  exists w',
    update_lyrics scenario_host 1 (quiet_world {[ other := "la" ]} ∅ None) = Ret tt w'
    /\ files w' !! other = Some "la".
Proof.
  intros other.
  destruct (update_lyrics_frame scenario_host 1
              (quiet_world {[ other := "la" ]} ∅ None) other)
    as (w' & Hrun & Hkept).
  - intros a t [= <-] [= <-]. vm_compute. discriminate.
  - exists w'. split; [exact Hrun|]. rewrite Hkept. reflexivity.
Defined.

(** X18: write-through makes the next resolution a cache hit.  After a
    run in which the provider answered [text] and the save succeeded (file
    opened, whole text stored, file readable), a second [update_lyrics] for
    the same track pushes [text] straight from the cache: one push, no
    "Loading...", no template compiled and no command spawned. *)
Theorem update_lyrics_twice (h : host) (it : track) (a t text : string) (w : world) :
  first_present h it lyrics_tags = None ->
  pl_find_meta h it "artist" = Some a ->
  pl_find_meta h it "title" = Some t ->
  value_of (load_cached_lyrics h (Some a) (Some t) w) = Some None ->
  (forall w0, value_of (get_lyrics_from_script h it w0) = Some (Some text)) ->
  cached_filename h a t ∉ unwritable w ->
  (forall n, room w = Some n -> String.length text <= n) ->
  cached_filename h a t ∉ unreadable w ->
  exists w1,
    update_lyrics h it w = Ret tt w1
    /\ update_lyrics h it w1
       = Ret tt (after (probe_events (cached_filename h a t) ++ [EvSetLyrics it text]) w1).
Proof.
  intros Hmeta Ha Ht Hmiss Hsome Hopen Hroom Hread.
  destruct (script_pure_quiet h it) as (res & evs & Hrun & _).
  pose proof (Hsome w) as Hres. rewrite Hrun in Hres. injection Hres as ->.
  rewrite (update_lyrics_keyed h it a t (Some text) evs w Hmeta Ha Ht Hrun).
  cbv zeta.
  assert (Hsaved : forall what, exists w1,
            after_miss h it a t what (Some text) evs w = Ret tt w1
            /\ files w1 !! cached_filename h a t = Some text
            /\ unreadable w1 = unreadable w).
  { intros what. unfold after_miss.
    rewrite save_cached_lyrics_open by exact Hopen.
    eexists. split; [reflexivity|]. cbn [files unreadable room after].
    rewrite lookup_insert_eq, stored_bytes_all by exact Hroom. auto. }
  destruct (load_miss_cases h a t w Hmiss) as [->|[[content ->] ->]].
  - destruct (Hsaved "Failed to open file: No such file or directory")
      as (w1 & -> & Hfile & Hunread).
    exists w1. split; [reflexivity|].
    apply update_lyrics_cache_hit_run; auto. now rewrite Hunread.
  - destruct (Hsaved "Failed to open file: Permission denied")
      as (w1 & -> & Hfile & Hunread).
    exists w1. split; [reflexivity|].
    apply update_lyrics_cache_hit_run; auto. now rewrite Hunread.
Qed.

Lemma update_lyrics_twice_witness :
  exists w1,
    update_lyrics scenario_host 1 fresh_world = Ret tt w1
    /\ update_lyrics scenario_host 1 w1
       = Ret tt (after (probe_events (cached_filename scenario_host "AC/DC" "T.N.T")
                        ++ [EvSetLyrics 1 "Hello"]) w1).
Proof.
  apply (update_lyrics_twice scenario_host 1 "AC/DC" "T.N.T" "Hello" fresh_world);
    [reflexivity|reflexivity|reflexivity|vm_compute; reflexivity
    |intros w0; vm_compute; reflexivity|by_evaluation|intros n [=]|by_evaluation].
Defined.

(** ** More on the cache *)

(** X19: for an artist and a title that are present, [load_cached_lyrics]
    always returns and changes no file.  It returns a text exactly when a
    file exists at the derived path and can be read, and the text is then
    the content of the file, byte for byte, valid UTF-8 or not; a path
    never written gives absent. *)
Theorem load_cached_lyrics_contract (h : host) (a t : string) (w : world) :
  exists res w',
    load_cached_lyrics h (Some a) (Some t) w = Ret res w'
    /\ files w' = files w
    /\ (forall content,
          res = Some content <->
          files w !! cached_filename h a t = Some content
          /\ cached_filename h a t ∉ unreadable w)
    /\ (files w !! cached_filename h a t = None -> res = None).
Proof.
  rewrite load_cached_lyrics_some. cbv zeta.
  destruct (files w !! cached_filename h a t) as [content|].
  - destruct (decide (cached_filename h a t ∈ unreadable w)) as [Hno|Hyes].
    + rewrite bool_decide_eq_true_2 by exact Hno.
      eexists _, _. split; [reflexivity|]. split; [reflexivity|].
      split; [|discriminate]. intros c. split; [discriminate|tauto].
    + rewrite bool_decide_eq_false_2 by exact Hyes.
      eexists _, _. split; [reflexivity|]. split; [reflexivity|].
      split; [|discriminate]. intros c. split; [intros [= <-]; auto|].
      now intros [[= <-] _].
  - eexists _, _. split; [reflexivity|]. split; [reflexivity|].
    split; [|reflexivity]. intros c. split; [discriminate|now intros [[=] _]].
Qed.

Lemma load_cached_lyrics_contract_witness :
  exists res w',
    load_cached_lyrics scenario_host (Some "AC/DC") (Some "T.N.T") fresh_world
    = Ret res w'
    /\ res = None.
Proof.
  destruct (load_cached_lyrics_contract scenario_host "AC/DC" "T.N.T" fresh_world)
    as (res & w' & Hrun & _ & _ & Hnone).
  exists res, w'. split; [exact Hrun|]. apply Hnone. reflexivity.
Defined.

Lemma replace_app (old_value new_value : ascii) (s1 s2 : string) :
  replace old_value new_value (s1 +:+ s2)
  = replace old_value new_value s1 +:+ replace old_value new_value s2.
Proof. induction s1 as [|c s1 IH]; simpl; congruence. Qed.

Lemma replace_absent (old_value new_value : ascii) (s : string) :
  occurs old_value s = false -> replace old_value new_value s = s.
Proof.
  induction s as [|c s IH]; simpl; [reflexivity|].
  intros Hocc. apply orb_false_elim in Hocc as [Hc Hs].
  now rewrite Hc, IH.
Qed.

Lemma replace_replace (old_value new_value : ascii) (s : string) :
  old_value <> new_value ->
  replace old_value new_value (replace old_value new_value s)
  = replace old_value new_value s.
Proof. intros Hne. apply replace_absent. now apply occurs_replace. Qed.

(** X20: different identities can share a cache file.  Moving a "-" from
    the title to the artist gives the same file name, and so does writing
    '_' where the other has '/': the key keeps neither the place of the
    separator nor the difference between '/' and '_'. *)
Theorem cached_filename_collisions (h : host) (a b c : string) :
  cached_filename h (a +:+ "-" +:+ b) c = cached_filename h a (b +:+ "-" +:+ c)
  /\ cached_filename h (replace "/" "_" a) (replace "/" "_" c)
     = cached_filename h a c.
Proof.
  split.
  - unfold cached_filename. rewrite !replace_app. simpl.
    now rewrite !append_assoc.
  - unfold cached_filename. now rewrite !replace_replace by discriminate.
Qed.

Lemma append_inj_l (s x y : string) : s +:+ x = s +:+ y -> x = y.
Proof. induction s as [|c s IH]; simpl; [auto|]. intros [= Heq]. auto. Qed.

Lemma split_at_dash (a a' t t' : string) :
  occurs "-" a = false -> occurs "-" a' = false ->
  a +:+ String "-" t = a' +:+ String "-" t' ->
  a = a' /\ t = t'.
Proof.
  revert a'. induction a as [|c a IH]; intros [|c' a']; simpl;
    intros Ha Ha' Heq.
  - injection Heq as ->. auto.
  - injection Heq as <- _. simpl in Ha'. discriminate.
  - injection Heq as -> _. simpl in Ha. discriminate.
  - injection Heq as -> Heq.
    apply orb_false_elim in Ha as [_ Ha]. apply orb_false_elim in Ha' as [_ Ha'].
    destruct (IH a' Ha Ha' Heq) as [-> ->]. auto.
Qed.

(** X21: identities are told apart when the separators are out of the
    way: if neither artist contains '/' or '-' and neither title contains
    '/', equal cache file names mean equal artists and equal titles. *)
Theorem cached_filename_injective (h : host) (a t a' t' : string) :
  occurs "/" a = false -> occurs "-" a = false -> occurs "/" t = false ->
  occurs "/" a' = false -> occurs "-" a' = false -> occurs "/" t' = false ->
  cached_filename h a t = cached_filename h a' t' ->
  a = a' /\ t = t'.
Proof.
  intros Ha Hda Ht Ha' Hda' Ht' Heq. unfold cached_filename in Heq.
  rewrite !replace_absent in Heq by assumption.
  rewrite !append_assoc in Heq. apply append_inj_l in Heq.
  now apply split_at_dash.
Qed.

Lemma cached_filename_injective_witness :
  "Queen" = "Queen" /\ "Innuendo" = "Innuendo".
Proof.
  apply (cached_filename_injective scenario_host "Queen" "Innuendo" "Queen" "Innuendo");
    reflexivity.
Defined.

(** X22: once [save_cached_lyrics] has opened the file, [is_cached]
    answers true for the same artist and title, even if the write was cut
    short; when the open fails, [is_cached] answers what it answered
    before.  Either way no other file is touched. *)
Theorem save_then_is_cached (h : host) (a t lyrics : string) (w : world) :
  exists b w1,
    save_cached_lyrics h a t lyrics w = Ret b w1
    /\ (b = true ->
        value_of (is_cached h (Some a) (Some t) w1) = Some true)
    /\ (b = false ->
        value_of (is_cached h (Some a) (Some t) w1)
        = value_of (is_cached h (Some a) (Some t) w))
    /\ forall path, path <> cached_filename h a t ->
                    files w1 !! path = files w !! path.
Proof.
  destruct (decide (cached_filename h a t ∈ unwritable w)) as [Hclosed|Hopen].
  - rewrite save_cached_lyrics_closed by exact Hclosed.
    eexists _, _. split; [reflexivity|]. split; [discriminate|].
    split; [intros _; now rewrite !is_cached_some|reflexivity].
  - rewrite save_cached_lyrics_open by exact Hopen.
    eexists _, _. split; [reflexivity|]. split; [|split; [discriminate|]].
    + intros _. rewrite is_cached_some; simpl. f_equal.
      apply bool_decide_eq_true. rewrite lookup_insert_eq. eauto.
    + intros path Hne. simpl. now apply lookup_insert_ne.
Qed.

Lemma save_then_is_cached_witness :
  exists w1,
    save_cached_lyrics scenario_host "AC/DC" "T.N.T" "Hello"
      (quiet_world ∅ ∅ (Some 2)) = Ret true w1
    /\ value_of (is_cached scenario_host (Some "AC/DC") (Some "T.N.T") w1) = Some true.
Proof.
  destruct (save_then_is_cached scenario_host "AC/DC" "T.N.T" "Hello"
              (quiet_world ∅ ∅ (Some 2))) as (b & w1 & Hrun & Htrue & _).
  assert (Hopen : cached_filename scenario_host "AC/DC" "T.N.T"
                  ∉ unwritable (quiet_world ∅ ∅ (Some 2))) by by_evaluation.
  pose proof (save_cached_lyrics_open scenario_host "AC/DC" "T.N.T" "Hello" _ Hopen)
    as Heq.
  cbv zeta in Heq. rewrite Hrun in Heq. injection Heq as Hb _.
  subst b. exists w1. split; [exact Hrun|]. now apply Htrue.
Defined.
